(** * watchstat: the token interpolator and the watch loop

    A shallow embedding of [src/watchstat/__init__.py] and of the watch
    options, the defaults and the initial-run step of
    [src/watchstat/__main__.py], with the properties the specification
    states about them.

    Conventions of the embedding:
    - a Python [str] is a [list ascii] (characters are taken to be ASCII, so
      [str.lower] only moves [A-Z]);
    - [str.find] returns [option nat]: [None] stands for the sentinel [-1];
    - an exception is a value of [exn]; code that can raise returns a
      [result];
    - loops that Python runs until a condition fails take a [fuel] argument;
      running out of it is the distinct outcome [Diverge] (resp. [ScanFuel]);
    - wall-clock readings are rationals ([Q]); [os.stat], [time.time],
      [time.sleep] and the callback are threaded through an explicit
      [World]. *)

From Stdlib Require Import ZArith QArith Qminmax Lqa String Ascii DecimalString.
From stdpp Require Import gmap strings list fin_maps.

Local Open Scope Z_scope.

(** ** Python values shared by both parts *)

Abbreviation pystr := (list ascii).

(** Literals: [py "abc"] is the Python string ['abc']. *)
Definition py (s : string) : pystr := list_ascii_of_string s.

(** The exceptions the modelled code can raise. *)
Inductive exn :=
| DelimiterMismatch              (* ValueError("delimiter mismatch") *)
| BadStatKey (key : pystr)       (* ValueError("bad stat key {0!r}") *)
| KeyError (key : pystr)         (* failed dict subscript *)
| IndexError                     (* argv[0] on an empty list *)
| SleepValueError                (* time.sleep with a negative length *)
| OverflowError                  (* a number too large for a float or a timestamp *)
| OSError (errno : Z)            (* os.stat failure *)
| AttributeError (name : pystr)  (* missing attribute of a namespace *)
| TypeError                      (* call with a wrong number of arguments *)
| SoftTimeout
| Timeout.

Inductive result (A : Type) :=
| Return (a : A)
| Raise (e : exn)
| Diverge.
Arguments Return {A} a.
Arguments Raise {A} e.
Arguments Diverge {A}.

Definition bind {A B} (r : result A) (k : A -> result B) : result B :=
  match r with
  | Return a => k a
  | Raise e => Raise e
  | Diverge => Diverge
  end.

Notation "'let*' x ':=' r 'in' k" := (bind r (fun x => k))
  (at level 10, x name, r at level 100, k at level 200,
   format "'[v' 'let*'  x  ':='  r  'in' '/' k ']'").

(** The ten [stat.ST_*] indexes; [field_index] is the integer constant. *)
Inductive field :=
| ST_MODE | ST_INO | ST_DEV | ST_NLINK | ST_UID
| ST_GID | ST_SIZE | ST_ATIME | ST_MTIME | ST_CTIME.

Definition field_index (f : field) : nat :=
  match f with
  | ST_MODE => 0 | ST_INO => 1 | ST_DEV => 2 | ST_NLINK => 3 | ST_UID => 4
  | ST_GID => 5 | ST_SIZE => 6 | ST_ATIME => 7 | ST_MTIME => 8 | ST_CTIME => 9
  end%nat.

Definition field_of_index (n : nat) : option field :=
  match n with
  | 0 => Some ST_MODE | 1 => Some ST_INO | 2 => Some ST_DEV
  | 3 => Some ST_NLINK | 4 => Some ST_UID | 5 => Some ST_GID
  | 6 => Some ST_SIZE | 7 => Some ST_ATIME | 8 => Some ST_MTIME
  | 9 => Some ST_CTIME | _ => None
  end%nat.

#[global] Instance field_eq_dec : EqDecision field.
Proof. solve_decision. Defined.

#[global] Instance field_countable : Countable field.
Proof.
  apply (inj_countable' field_index
           (fun n => default ST_MODE (field_of_index n))).
  intros []; reflexivity.
Defined.

(** An [os.stat_result], read by index: every entry is an integer. *)
Record stat_result := {
  st_mode : Z; st_ino : Z; st_dev : Z; st_nlink : Z; st_uid : Z;
  st_gid : Z; st_size : Z; st_atime : Z; st_mtime : Z; st_ctime : Z
}.

(** [status[field]] *)
Definition getitem (status : stat_result) (f : field) : Z :=
  match f with
  | ST_MODE => st_mode status | ST_INO => st_ino status
  | ST_DEV => st_dev status | ST_NLINK => st_nlink status
  | ST_UID => st_uid status | ST_GID => st_gid status
  | ST_SIZE => st_size status | ST_ATIME => st_atime status
  | ST_MTIME => st_mtime status | ST_CTIME => st_ctime status
  end.

(** ** Python string primitives *)

Module Py.

(** [s.startswith(p)] *)
Fixpoint startswith (p s : pystr) : bool :=
  match p, s with
  | [], _ => true
  | _ :: _, [] => false
  | a :: p', b :: s' => bool_decide (a = b) && startswith p' s'
  end.

(** [s.find(sub)]: lowest index at which [sub] occurs in [s]. *)
Fixpoint find0 (s sub : pystr) : option nat :=
  if startswith sub s then Some 0%nat
  else match s with
       | [] => None
       | _ :: s' => S <$> find0 s' sub
       end.

(** [s.find(sub, start)] for [start >= 0]: the search runs in [s[start:]];
    a start beyond the end finds nothing, not even the empty string. *)
Definition find (s sub : pystr) (start : nat) : option nat :=
  if (length s <? start)%nat then None
  else (fun i => (start + i)%nat) <$> find0 (drop start s) sub.

(** [s[a:b]] for non-negative [a], [b]. *)
Definition slice (s : pystr) (a b : nat) : pystr := take (b - a) (drop a s).

(** [s[a:]] *)
Definition slice_from (s : pystr) (a : nat) : pystr := drop a s.

Definition lower_char (c : ascii) : ascii :=
  let n := nat_of_ascii c in
  if ((65 <=? n) && (n <=? 90))%nat then ascii_of_nat (n + 32) else c.

(** [s.lower()] *)
Definition lower (s : pystr) : pystr := map lower_char s.

(** [repr(n)] of an integer: its decimal numeral. *)
Definition repr (n : Z) : pystr :=
  list_ascii_of_string (NilZero.string_of_int (Z.to_int n)).

(** [s.count(sub)]: occurrences found left to right, each search resuming
    after the previous occurrence. [skip] characters are still covered by
    the last occurrence. *)
Fixpoint count_skip (skip : nat) (s sub : pystr) : nat :=
  match s with
  | [] => 0
  | _ :: s' =>
      match skip with
      | S k => count_skip k s' sub
      | O => if startswith sub s
             then S (count_skip (length sub - 1) s' sub)
             else count_skip 0 s' sub
      end
  end%nat.

Definition count (s sub : pystr) : nat := count_skip 0 s sub.

End Py.

(** ** The token interpolator *)

Module Interp.
Import Py.

(** [stat_info]: index -> (option letter, long name, description), in the
    order of the dict literal. *)
Definition stat_info : list (field * (pystr * pystr * pystr)) :=
  [ (ST_MTIME, (py "m", py "mtime", py "modification time"));
    (ST_ATIME, (py "a", py "atime", py "access time"));
    (ST_CTIME, (py "c", py "ctime", py "status time"));
    (ST_DEV, (py "d", py "dev", py "device ID"));
    (ST_INO, (py "i", py "ino", py "inode number"));
    (ST_MODE, (py "M", py "mode", py "protection mode"));
    (ST_NLINK, (py "n", py "nlink", py "number of hard links"));
    (ST_UID, (py "u", py "uid", py "user ID of owner"));
    (ST_GID, (py "g", py "gid", py "group ID of owner"));
    (ST_SIZE, (py "s", py "size", py "total size")) ].

Definition _reverse_stat_info
    (info : list (field * (pystr * pystr * pystr))) : gmap pystr field :=
  foldl (fun rinfo '(index, (opt, fld, desc)) =>
           <[fld := index]> (<[opt := index]> rinfo))
        ∅ info.

Definition rstat_info : gmap pystr field := _reverse_stat_info stat_info.

(** How the generator [find_tokens] stops: exhausted, or by raising
    [ValueError("delimiter mismatch")]; [ScanFuel] is the model running
    out of fuel. *)
Inductive scan_end := ScanDone | ScanMismatch | ScanFuel.

Definition token : Type := nat * pystr.

(** The [while delim_offset >= 0] loop of [find_tokens]; the argument
    [delim_offset] is the value tested by the loop condition. The result
    is the sequence of yielded items and the way the generator ends. *)
Fixpoint find_tokens_loop (fuel : nat) (string delim : pystr)
    (delim_offset : option nat) : list token * scan_end :=
  match delim_offset with
  | None => ([], ScanDone)
  | Some token_offset =>
      match fuel with
      | O => ([], ScanFuel)
      | S fuel' =>
          let key_offset := (token_offset + length delim)%nat in
          match find string delim key_offset with
          | None => ([], ScanMismatch)
          | Some delim_offset' =>
              let rest :=
                find_tokens_loop fuel' string delim
                  (find string delim (delim_offset' + length delim)) in
              if (delim_offset' =? key_offset)%nat then rest
              else ((token_offset, slice string key_offset delim_offset')
                      :: rest.1, rest.2)
          end
      end
  end.

Definition find_tokens (string delim : pystr) : list token * scan_end :=
  find_tokens_loop (S (length string)) string delim (find string delim 0).

(** Lines 93-100: the text written for a non-empty key. *)
Definition resolve_key (key : pystr) (status : stat_result)
    (extra_keys : gmap pystr pystr) : result pystr :=
  match rstat_info !! lower key with
  | Some _ =>
      match rstat_info !! key with
      | Some fld => Return (repr (getitem status fld))
      | None => Raise (KeyError key)
      end
  | None =>
      match extra_keys !! key with
      | Some _ =>
          match extra_keys !! lower key with
          | Some v => Return v
          | None => Raise (KeyError (lower key))
          end
      | None => Raise (BadStatKey key)
      end
  end.

(** The [for offset, key in find_tokens(...)] loop and the lines after
    it. [interp] is the text written so far. The generator is consumed
    lazily, so its own error surfaces only after every yielded token has
    been processed. *)
Fixpoint interpolate_loop (string delim : pystr) (status : stat_result)
    (extra_keys : gmap pystr pystr) (toks : list token) (fin : scan_end)
    (last_offset : nat) (interp : pystr) : result pystr :=
  match toks with
  | [] =>
      match fin with
      | ScanDone => Return (interp ++ slice_from string last_offset)
      | ScanMismatch => Raise DelimiterMismatch
      | ScanFuel => Diverge
      end
  | (offset, key) :: toks' =>
      let interp := interp ++ slice string last_offset offset in
      let* written := match key with
                      | [] => Return []
                      | _ :: _ => resolve_key key status extra_keys
                      end in
      interpolate_loop string delim status extra_keys toks' fin
        (offset + length key + 2 * length delim)%nat (interp ++ written)
  end.

Definition interpolate_argument (string delim : pystr)
    (status : stat_result) (extra_keys : gmap pystr pystr)
    : result pystr :=
  let '(toks, fin) := find_tokens string delim in
  interpolate_loop string delim status extra_keys toks fin 0 [].

(** The list comprehension over [argv[1:]], left to right. *)
Fixpoint interpolate_each (args : list pystr) (delim : pystr)
    (status : stat_result) (keys : gmap pystr pystr)
    : result (list pystr) :=
  match args with
  | [] => Return []
  | arg :: args' =>
      let* v := interpolate_argument arg delim status keys in
      let* vs := interpolate_each args' delim status keys in
      Return (v :: vs)
  end.

Definition interpolate_argument_vector (argv : list pystr) (delim : pystr)
    (status : stat_result) (keys : gmap pystr pystr)
    : result (list pystr) :=
  match argv with
  | [] => Raise IndexError
  | argv0 :: rest =>
      let* vs := interpolate_each rest delim status keys in
      Return (argv0 :: vs)
  end.

End Interp.

(** ** The watch loop *)

Module Watch.

(** What [os.stat(path)] does: a snapshot, or OSError with an errno. *)
Inductive stat_outcome :=
| StatOk (st : stat_result)
| StatError (errno : Z).

Definition ENOENT : Z := 2.

(** [sys.maxsize] of a 64-bit build. *)
Definition maxsize : Q := inject_Z (2 ^ 63 - 1).

(** One invocation [callback(path, diff_fields, last_status, next_status)]. *)
Record call := {
  call_path : pystr;
  call_diff : gset field;
  call_last : option stat_result;
  call_next : stat_result
}.

(** The environment of a run, as the answers it gives: the [k]-th reading
    of [time.time()], the [k]-th [os.stat] of each path, and what the
    [k]-th invocation of the callback returns ([None], or a value tested
    for truth). The loop is sequential, so these answers determine the
    run. A callback that raises is not modelled. *)
Record Env := {
  clock : nat -> Q;
  os_stat : pystr -> nat -> stat_outcome;
  callback : nat -> call -> option bool
}.

(** What has happened so far. *)
Record World := {
  time_calls : nat;
  stat_calls : gmap pystr nat;
  slept : list Q;       (* arguments of time.sleep, latest first *)
  called : list call    (* invocations of the callback, latest first *)
}.

Definition world0 : World :=
  {| time_calls := 0; stat_calls := ∅; slept := []; called := [] |}.

Definition stat_count (w : World) (path : pystr) : nat :=
  default 0%nat (stat_calls w !! path).

Definition tick (w : World) : World :=
  {| time_calls := S (time_calls w); stat_calls := stat_calls w;
     slept := slept w; called := called w |}.
Definition record_sleep (secs : Q) (w : World) : World :=
  {| time_calls := time_calls w; stat_calls := stat_calls w;
     slept := secs :: slept w; called := called w |}.
Definition record_stat (path : pystr) (w : World) : World :=
  {| time_calls := time_calls w;
     stat_calls := <[path := S (stat_count w path)]> (stat_calls w);
     slept := slept w; called := called w |}.
Definition record_call (c : call) (w : World) : World :=
  {| time_calls := time_calls w; stat_calls := stat_calls w;
     slept := slept w; called := c :: called w |}.

(** Code that uses the world and may raise. *)
Definition M (A : Type) : Type := World -> result A * World.

Definition ret {A} (a : A) : M A := fun w => (Return a, w).
Definition raise {A} (e : exn) : M A := fun w => (Raise e, w).

Definition mbind {A B} (m : M A) (k : A -> M B) : M B :=
  fun w => match m w with
           | (Return a, w') => k a w'
           | (Raise e, w') => (Raise e, w')
           | (Diverge, w') => (Diverge, w')
           end.

Notation "'let+' x ':=' m 'in' k" := (mbind m (fun x => k))
  (at level 10, x pattern, m at level 100, k at level 200,
   format "'[v' 'let+'  x  ':='  m  'in' '/' k ']'").

Definition Qltb (x y : Q) : bool := negb (Qle_bool y x).   (* x < y *)
Definition Qgeb (x y : Q) : bool := Qle_bool y x.          (* x >= y *)

(** The local variables of the loop. *)
Record locals := {
  now : Q;
  ncalls : Z;
  stats : gmap pystr (option stat_result);
  continu : option bool
}.

Definition set_now (t : Q) (l : locals) : locals :=
  {| now := t; ncalls := ncalls l; stats := stats l; continu := continu l |}.
Definition set_continu (c : option bool) (l : locals) : locals :=
  {| now := now l; ncalls := ncalls l; stats := stats l; continu := c |}.

(** How the body of the [for] loop leaves: falls through to the next
    entry, or [break]s. *)
Inductive control := Next | Break.

Section Loop.
Variable env : Env.

Definition time_time : M Q := fun w =>
  (Return (clock env (time_calls w)), tick w).

(** An integer that meets a float in an arithmetic operation is converted
    to a float first; the conversion raises OverflowError when the integer
    is beyond the range of a double, that is when its magnitude is at
    least [2^1024 - 2^970], which rounds to [2^1024]. *)
Definition float_limit : Z := 2 ^ 1024 - 2 ^ 970.

Definition int_to_float (z : Z) : M Q := fun w =>
  if float_limit <=? Z.abs z then (Raise OverflowError, w)
  else (Return (inject_Z z), w).

(** The length of a sleep in nanoseconds, rounded away from zero, as
    [time.sleep] converts its argument. *)
Definition sleep_ns (secs : Q) : Z :=
  let n := Qnum secs * 1000000000 in
  let d := Z.pos (Qden secs) in
  if 0 <=? n then - (- n / d) else n / d.

(** The nanoseconds do not fit the signed 64-bit timestamp. *)
Definition sleep_overflow (secs : Q) : bool :=
  (sleep_ns secs <? - 2 ^ 63) || (2 ^ 63 <=? sleep_ns secs).

(** [time.sleep] converts the length to a timestamp, which raises
    OverflowError when it does not fit, and then refuses a negative
    length. Time is rational here: the rounding of floats at the edge of
    the range is not modelled. *)
Definition time_sleep (secs : Q) : M unit := fun w =>
  if sleep_overflow secs then (Raise OverflowError, w)
  else if Qltb secs 0 then (Raise SleepValueError, w)
  else (Return tt, record_sleep secs w).

Definition os_stat_call (path : pystr) : M stat_result := fun w =>
  match os_stat env path (stat_count w path) with
  | StatOk st => (Return st, record_stat path w)
  | StatError errno => (Raise (OSError errno), record_stat path w)
  end.

Definition call_callback (c : call) : M (option bool) := fun w =>
  (Return (callback env (length (called w)) c), record_call c w).

Definition try_stat (path : pystr) (retry : bool)
    : M (option stat_result) := fun w =>
  match os_stat_call path w with
  | (Return st, w') => (Return (Some st), w')
  | (Raise (OSError errno), w') =>
      if negb (errno =? ENOENT) then (Raise (OSError errno), w')
      else if negb retry then (Raise (OSError errno), w')
      else (Return None, w')
  | (Raise e, w') => (Raise e, w')
  | (Diverge, w') => (Diverge, w')
  end.

Variables (watchlist : list (pystr * list field))
          (interval limit : Z) (retry : bool).

(** [dict((path, try_stat(path, retry)) for path, fields in watchlist)] *)
Fixpoint initial_stats (wl : list (pystr * list field))
    (acc : gmap pystr (option stat_result))
    : M (gmap pystr (option stat_result)) :=
  match wl with
  | [] => ret acc
  | (path, fields) :: wl' =>
      let+ st := try_stat path retry in
      initial_stats wl' (<[path := st]> acc)
  end.

(** Lines 221-225: the fields of [fields] whose values differ. *)
Definition differing (fields : list field)
    (last_status next_status : stat_result) : gset field :=
  foldl (fun diff_fields field_index =>
           if bool_decide (getitem last_status field_index
                           <> getitem next_status field_index)
           then diff_fields ∪ {[field_index]} else diff_fields)
        ∅ fields.

(** Absolute soft and hard deadlines; fixed once the loop starts. *)
Variables (softtimeout timeout : Q).

(** Lines 240-244. *)
Definition stop_after_entry (l : locals) : bool :=
  ((0 <? limit) && (limit <=? ncalls l))
  || ((ncalls l =? 0) && Qgeb (now l) softtimeout)
  || Qgeb (now l) timeout.

(** Lines 219-229: the diff set of an existing path. *)
Definition diff_of (fields : list field)
    (last_status : option stat_result) (next_status : stat_result)
    : gset field :=
  match last_status with
  | Some last => differing fields last next_status
  | None => list_to_set fields
  end.

(** Lines 238-246: the end of the body of the [for] loop. *)
Definition end_of_entry (path : pystr)
    (next_status : option stat_result) (l : locals)
    : M (control * locals) :=
  let l := {| now := now l; ncalls := ncalls l;
              stats := <[path := next_status]> (stats l);
              continu := continu l |} in
  let+ t := time_time in
  let l := set_now t l in
  if stop_after_entry l then ret (Break, set_continu (Some false) l)
  else ret (Next, l).

(** Lines 211-246: the body of [for path, fields in watchlist]. *)
Definition poll_entry (entry : pystr * list field) (l : locals)
    : M (control * locals) :=
  let '(path, fields) := entry in
  let fields := match fields with [] => [ST_MTIME] | _ :: _ => fields end in
  let+ next_status := try_stat path retry in
  let+ last_status := match stats l !! path with
                      | Some st => ret st
                      | None => raise (KeyError path)
                      end in
  match next_status with
  | Some next =>
      let diff_fields := diff_of fields last_status next in
      if bool_decide (diff_fields <> ∅) then
        let l := {| now := now l; ncalls := ncalls l + 1;
                    stats := stats l; continu := continu l |} in
        let+ c := call_callback
                    {| call_path := path; call_diff := diff_fields;
                       call_last := last_status; call_next := next |} in
        let l := set_continu c l in
        match c with
        | Some false => ret (Break, l)
        | _ => end_of_entry path next_status l
        end
      else end_of_entry path next_status l
  | None => end_of_entry path next_status l
  end.

Fixpoint for_watchlist (wl : list (pystr * list field)) (l : locals)
    : M (control * locals) :=
  match wl with
  | [] => ret (Next, l)
  | entry :: wl' =>
      let+ r := poll_entry entry l in
      match r.1 with
      | Break => ret r
      | Next => for_watchlist wl' r.2
      end
  end.

(** Lines 197-201. *)
Definition loop_condition (l : locals) : bool :=
  ((limit <=? 0) || (ncalls l <? limit))
  && ((0 <? ncalls l) || Qltb (now l) softtimeout)
  && Qltb (now l) timeout.

(** Line 204; [min] of three numbers, the last one [interval / 1000.0]. *)
Definition sleep_dur (l : locals) : Q :=
  Qmin (softtimeout - now l)
       (Qmin (timeout - now l) (inject_Z interval / 1000)).

(** Lines 197-250: the [while] loop; it returns the locals it ends
    with. Line 204 converts [interval] to a float before the minimum is
    taken, and line 205 sleeps. *)
Fixpoint while_loop (fuel : nat) (l : locals) : M locals :=
  if loop_condition l then
    match fuel with
    | O => fun w => (Diverge, w)
    | S fuel' =>
        let l := set_continu (Some true) l in
        let+ _ := int_to_float interval in
        let+ _ := time_sleep (sleep_dur l) in
        let+ t := time_time in
        let l := set_now t l in
        if ((ncalls l =? 0) && Qgeb (now l) softtimeout)
           || Qgeb (now l) timeout
        then ret l
        else
          let+ r := for_watchlist watchlist l in
          let l := r.2 in
          match continu l with
          | Some false => ret l
          | _ => let+ t := time_time in
                 while_loop fuel' (set_now t l)
          end
    end
  else ret l.

(** Lines 252-258. *)
Definition outcome (l : locals) : result Z :=
  if (ncalls l =? 0) && Qgeb (now l) softtimeout then Raise SoftTimeout
  else if Qgeb (now l) timeout then Raise Timeout
  else Return (ncalls l).

End Loop.

(** Lines 190-191: [now + t if t else sys.maxsize]; [None] and zero are
    false. *)
Definition deadline (now : Q) (t : option Q) : Q :=
  match t with
  | Some q => if Qeq_bool q 0 then maxsize else now + q
  | None => maxsize
  end.

(** Lines 189-250 of [watchstat]: everything up to the end of the loop.
    The result is the pair of deadlines and the final locals. *)
Definition watchstat_loop (env : Env) (fuel : nat)
    (watchlist : list (pystr * list field)) (interval limit : Z)
    (retry : bool) (softtimeout timeout : option Q)
    : M (Q * Q * locals) :=
  let+ now := time_time env in
  let softtimeout := deadline now softtimeout in
  let timeout := deadline now timeout in
  let ncalls := 0 in
  let+ stats := initial_stats env retry watchlist ∅ in
  let+ l := while_loop env watchlist interval limit retry
              softtimeout timeout fuel
              {| now := now; ncalls := ncalls; stats := stats;
                 continu := None |} in
  ret (softtimeout, timeout, l).

Definition watchstat (env : Env) (fuel : nat)
    (watchlist : list (pystr * list field)) (interval limit : Z)
    (retry : bool) (softtimeout timeout : option Q) : M Z :=
  let+ r := watchstat_loop env fuel watchlist interval limit retry
              softtimeout timeout in
  let '(softtimeout, timeout, l) := r in
  fun w => (outcome softtimeout timeout l, w).

End Watch.

(** ** The initial run of the command line *)

Module Main.
Import Watch.

(** Values of the attributes of an [argparse] namespace. *)
Inductive pyval :=
| PyNone
| PyBool (b : bool)
| PyInt (z : Z)
| PyStr (s : pystr)
| PyList (l : list pystr)
| PyWatch (w : list (pystr * list field)).

(** The options [parse_args] returns, after its defaults are applied. *)
Record options := {
  verbose : Z;
  watch : list (pystr * list field);
  initial_run : bool;
  limit : Z;
  interval : Z;
  timeout : Z;
  softtimeout : Z;
  force : bool;
  retry : bool;
  interp : option pystr;
  command : pystr;
  args : list pystr
}.

(** The namespace: one attribute per [dest] of the [add_argument] calls of
    [parse_args] (lines 35-122), and no other. *)
Definition namespace (o : options) : gmap pystr pyval :=
  list_to_map
    [ (py "verbose", PyInt (verbose o));
      (py "watch", PyWatch (watch o));
      (py "initial_run", PyBool (initial_run o));
      (py "limit", PyInt (limit o));
      (py "interval", PyInt (interval o));
      (py "timeout", PyInt (timeout o));
      (py "softtimeout", PyInt (softtimeout o));
      (py "force", PyBool (force o));
      (py "retry", PyBool (retry o));
      (py "interp", match interp o with
                    | Some d => PyStr d
                    | None => PyNone
                    end);
      (py "command", PyStr (command o));
      (py "args", PyList (args o)) ].

(** [opts.name] *)
Definition getattr (opts : gmap pystr pyval) (name : pystr) : M pyval :=
  match opts !! name with
  | Some v => ret v
  | None => raise (AttributeError name)
  end.

(** Truth value of an attribute. *)
Definition truth (v : pyval) : bool :=
  match v with
  | PyNone => false
  | PyBool b => b
  | PyInt z => negb (z =? 0)
  | PyStr s => negb (bool_decide (s = []))
  | PyList l => negb (bool_decide (l = []))
  | PyWatch w => negb (bool_decide (w = []))
  end.

(** Lines 201-203 of [main]:
    [if opts.initial_run: callback(set(), None, os.stat(opts.path))].
    The arguments are evaluated before the call. The call itself passes
    three positional arguments; [command_callback] takes four, and the
    verbose wrapper hands its three on to [command_callback], so the
    call ends in TypeError. *)
Definition initial_run_step (env : Env) (opts : gmap pystr pyval)
    : M unit :=
  let+ flag := getattr opts (py "initial_run") in
  if truth flag then
    let+ path := getattr opts (py "path") in
    match path with
    | PyStr p => let+ _ := os_stat_call env p in raise TypeError
    | _ => raise TypeError
    end
  else ret tt.

End Main.

(** ** The command line: watch options and defaults *)

Module Cli.
Import Interp.

(** What ends the processing of the command line: the RuntimeError of
    [WatchAction], the exit of [p.error], or an exception of a dict. *)
Inductive error :=
| RuntimeError
| ParserExit
| Exn (e : exn).

(** [opt.lstrip("-")] *)
Fixpoint lstrip_dash (opt : pystr) : pystr :=
  match opt with
  | c :: rest => if Ascii.eqb c "-" then lstrip_dash rest else opt
  | [] => []
  end.

(** A dict keeps its keys in insertion order: [d[k]] and [d[k] = v]. *)
Fixpoint dict_get {V : Type} (d : list (pystr * V)) (k : pystr) : option V :=
  match d with
  | [] => None
  | (k', v) :: d' => if decide (k' = k) then Some v else dict_get d' k
  end.

Fixpoint dict_set {V : Type} (d : list (pystr * V)) (k : pystr) (v : V)
    : list (pystr * V) :=
  match d with
  | [] => [(k, v)]
  | (k', v') :: d' =>
      if decide (k' = k) then (k', v) :: d' else (k', v') :: dict_set d' k v
  end.

(** [WatchAction.__call__] (lines 15-25) on the dict of the namespace;
    [realpath] stands for [os.path.realpath] on the file system of the
    run. The list of a path is extended in place. *)
Definition WatchAction_call (realpath : pystr -> pystr)
    (watchdict : list (pystr * list field)) (path opt : pystr)
    : error + list (pystr * list field) :=
  let sopt := lstrip_dash opt in
  match rstat_info !! sopt with
  | None => inl RuntimeError
  | Some stat_index =>
      let path := realpath path in
      let watchdict :=
        match dict_get watchdict path with
        | None => dict_set watchdict path []
        | Some _ => watchdict
        end in
      match dict_get watchdict path with
      | None => inl (Exn (KeyError path))
      | Some fields => inr (dict_set watchdict path (fields ++ [stat_index]))
      end
  end.

(** The watch options of a command line, as (option string, PATH) pairs in
    the order given: [p.parse_args] calls the action once for each. *)
Fixpoint watch_options (realpath : pystr -> pystr)
    (watchdict : list (pystr * list field)) (given : list (pystr * pystr))
    : error + list (pystr * list field) :=
  match given with
  | [] => inr watchdict
  | (opt, path) :: rest =>
      match WatchAction_call realpath watchdict path opt with
      | inl e => inl e
      | inr watchdict => watch_options realpath watchdict rest
      end
  end.

(** Lines 126-137 of [parse_args]: the defaults applied to the parsed
    options; the result is the pair of [opts.retry] and [opts.limit]. *)
Definition apply_defaults (force retry : bool) (limit : option Z)
    (watch : list (pystr * list field)) : error + bool * Z :=
  let retry := if force then true else retry in
  let limit :=
    if force then match limit with None => Some 0 | Some _ => limit end
    else limit in
  let limit := match limit with None => 1 | Some n => n end in
  if negb (Main.truth (Main.PyWatch watch)) then inl ParserExit
  else inr (retry, limit).

End Cli.

Import Py Interp Watch.

(** * Notions used in the statements *)

(** A loop entry of [find_tokens] is in range when the offset came out of
    [find]; with a non-empty delimiter every round moves it by at least two
    characters, so [fuel + offset > len(string)] is enough fuel. *)
Definition in_range (string delim : pystr) (fuel : nat) (off : option nat)
    : Prop :=
  forall t, off = Some t ->
    (t + length delim <= length string)%nat /\ (length string < fuel + t)%nat.

(** Delimiter occurrences from offset [start] on. *)
Definition count_from (string delim : pystr) (start : nat) : nat :=
  count_skip 0 (drop start string) delim.

(** The same number, read off the result of the next [find]. *)
Definition count_at (string delim : pystr) (off : option nat) : nat :=
  match off with
  | None => 0%nat
  | Some t => S (count_from string delim (t + length delim))
  end.

(** Tokens of a string seen at offset [n] of a longer string. *)
Definition shift_tokens (n : nat) (toks : list token) : list token :=
  map (fun tk : token => ((n + tk.1)%nat, tk.2)) toks.

(** The first failure of a vector: argument [i] of [args] raises [e] and
    the arguments before it interpolate. [e] is the mismatch, raised after
    every key the scanner yielded has resolved, or the error of the first
    yielded key that does not resolve. *)
Definition first_failure (delim : pystr) (status : stat_result)
    (keys : gmap pystr pystr) (args : list pystr) (i : nat) (e : exn)
    : Prop :=
  exists a,
    args !! i = Some a /\
    (forall i' b, (i' < i)%nat -> args !! i' = Some b ->
       exists out, interpolate_argument b delim status keys = Return out) /\
    interpolate_argument a delim status keys = Raise e /\
    ((e = DelimiterMismatch /\
      (find_tokens a delim).2 = ScanMismatch /\
      forall o k, (o, k) ∈ (find_tokens a delim).1 ->
        exists v, resolve_key k status keys = Return v) \/
     exists toks1 o k toks2,
       (find_tokens a delim).1 = toks1 ++ (o, k) :: toks2 /\
       (forall o' k', (o', k') ∈ toks1 ->
          exists v, resolve_key k' status keys = Return v) /\
       resolve_key k status keys = Raise e).

(** The locals at the end of the body of the [for] loop. *)
Definition entry_locals (env : Env) (path : pystr)
    (next_status : option stat_result) (l : locals) (w : World) : locals :=
  {| now := clock env (time_calls w); ncalls := ncalls l;
     stats := <[path := next_status]> (stats l); continu := continu l |}.

(** The field set compared for an entry. *)
Definition effective (fields : list field) : list field :=
  match fields with [] => [ST_MTIME] | _ :: _ => fields end.

(** Every stat of the entry's path succeeds, and any two consecutive
    snapshots of it differ in a field the entry watches. *)
Definition keeps_changing (env : Env) (entry : pystr * list field) : Prop :=
  forall k, exists s s',
    os_stat env entry.1 k = StatOk s /\
    os_stat env entry.1 (S k) = StatOk s' /\
    exists f, f ∈ effective entry.2 /\ getitem s f <> getitem s' f.

(** The stored snapshot of [path] is the result of its latest stat. *)
Definition tracked (env : Env) (stats : gmap pystr (option stat_result))
    (w : World) (path : pystr) : Prop :=
  exists k s, stat_count w path = S k /\ os_stat env path k = StatOk s /\
              stats !! path = Some (Some s).

(** Every watched path is tracked and the clock is before both
    deadlines. *)
Definition good (env : Env) (watchlist : list (pystr * list field))
    (soft hard : Q) (l : locals) (w : World) : Prop :=
  (forall q, q ∈ watchlist.*1 -> tracked env (stats l) w q) /\
  (now l < soft)%Q /\ (now l < hard)%Q.

(** [ncalls] counts the invocations of the callback: [base] is the number
    of invocations made before the loop. *)
Definition counted (base : Z) (l : locals) (w : World) : Prop :=
  Z.of_nat (length (called w)) = base + ncalls l.

(** The limit, when there is one, has not been exceeded. *)
Definition within_limit (limit : Z) (l : locals) : Prop :=
  0 < limit -> ncalls l <= limit.

(** The names a registry table binds: the option letter and the long name
    of every entry, in order. *)
Definition names_of (info : list (field * (pystr * pystr * pystr)))
    : list pystr :=
  flat_map (fun e => [e.2.1.1; e.2.1.2]) info.

(** The offsets the loop of [find_tokens] is entered with are occurrences
    of the delimiter. *)
Definition at_delimiter (string delim : pystr) (off : option nat) : Prop :=
  forall t, off = Some t -> startswith delim (drop t string) = true.

(** The states the [while] loop ends in: no invocation and the soft
    deadline reached, the hard deadline reached, or at least one
    invocation. *)
Definition ended (softtimeout timeout : Q) (l : locals) : Prop :=
  (ncalls l = 0 /\ (softtimeout <= now l)%Q) \/ (timeout <= now l)%Q \/
  1 <= ncalls l.

(** An exception that is not the KeyError of a dict subscript. *)
Definition no_key_error (e : exn) : Prop := forall key, e <> KeyError key.

(** The stored snapshots cover the paths of the watch list. *)
Definition covers (stats : gmap pystr (option stat_result))
    (wl : list (pystr * list field)) : Prop :=
  forall path, path ∈ wl.*1 -> is_Some (stats !! path).

(** The elements of [l] not in [seen], each at its first occurrence. *)
Fixpoint first_seen (seen l : list pystr) : list pystr :=
  match l with
  | [] => []
  | x :: l' =>
      if decide (x ∈ seen) then first_seen seen l'
      else x :: first_seen (seen ++ [x]) l'
  end.

(** The option string of a watch option names a stat field. *)
Definition known (given : pystr * pystr) : Prop :=
  is_Some (rstat_info !! Cli.lstrip_dash given.1).

(** The fields of the watch options given for [path], in their order. *)
Definition fields_for (realpath : pystr -> pystr) (path : pystr)
    (given : list (pystr * pystr)) : list field :=
  omap (fun g : pystr * pystr =>
          if decide (realpath g.2 = path)
          then rstat_info !! Cli.lstrip_dash g.1 else None) given.

(** What the head of a cycle raises for the interval and the sleep length
    [secs]: OverflowError when the interval does not convert to a float or
    the length does not fit a timestamp, else the ValueError of a negative
    length. *)
Definition sleep_error (interval : Z) (secs : Q) : option exn :=
  if (float_limit <=? Z.abs interval) || sleep_overflow secs
  then Some OverflowError
  else if Qltb secs 0 then Some SleepValueError
  else None.

(** ** Sample data for the concrete runs *)

Definition st0 : stat_result :=
  {| st_mode := 33188; st_ino := 7; st_dev := 2049; st_nlink := 1;
     st_uid := 1000; st_gid := 1000; st_size := 42; st_atime := 1700000000;
     st_mtime := 1700000100; st_ctime := 1700000100 |}.

Definition tmp_f : pystr := py "/tmp/f".

(** [st] with its modification (resp. access) time moved by [n] seconds. *)
Definition touched (st : stat_result) (n : Z) : stat_result :=
  {| st_mode := st_mode st; st_ino := st_ino st; st_dev := st_dev st;
     st_nlink := st_nlink st; st_uid := st_uid st; st_gid := st_gid st;
     st_size := st_size st; st_atime := st_atime st;
     st_mtime := st_mtime st + n; st_ctime := st_ctime st |}.
Definition accessed (st : stat_result) (n : Z) : stat_result :=
  {| st_mode := st_mode st; st_ino := st_ino st; st_dev := st_dev st;
     st_nlink := st_nlink st; st_uid := st_uid st; st_gid := st_gid st;
     st_size := st_size st; st_atime := st_atime st + n;
     st_mtime := st_mtime st; st_ctime := st_ctime st |}.

(** The clock of the runs below: each reading is one second after the
    previous one. *)
Definition seconds (k : nat) : Q := inject_Z (Z.of_nat k).

(** A file that is written between any two polls; the callback lets the
    loop go on. *)
Definition env_touch : Env :=
  {| clock := seconds;
     os_stat := fun _ k => StatOk (touched st0 (Z.of_nat k));
     callback := fun _ _ => Some true |}.

(** The same file with a callback that asks to stop. *)
Definition env_stop : Env :=
  {| clock := seconds;
     os_stat := fun _ k => StatOk (touched st0 (Z.of_nat k));
     callback := fun _ _ => Some false |}.

(** A file that is only read between polls. *)
Definition env_access : Env :=
  {| clock := seconds;
     os_stat := fun _ k => StatOk (accessed st0 (Z.of_nat k));
     callback := fun _ _ => Some true |}.

(** A file that is missing at the first stat and exists from then on. *)
Definition env_created : Env :=
  {| clock := seconds;
     os_stat := fun _ k => match k with
                           | O => StatError ENOENT
                           | S _ => StatOk st0
                           end;
     callback := fun _ _ => Some true |}.

(** A file that never changes. *)
Definition env_idle : Env :=
  {| clock := seconds;
     os_stat := fun _ _ => StatOk st0;
     callback := fun _ _ => Some true |}.

(** Locals and world right after the initial snapshot [st] of [tmp_f]. *)
Definition locals1 (st : option stat_result) : locals :=
  {| now := 0; ncalls := 0; stats := {[ tmp_f := st ]}; continu := None |}.
Definition world1 : World := record_stat tmp_f (tick world0).

(** * Properties of the string primitives *)

Section FindFacts.

Lemma startswith_prefix (p s : pystr) :
  startswith p s = true <-> exists t, s = p ++ t.
Proof.
  revert s. induction p as [|a p IH]; intros s; simpl.
  - split; [intros _; by exists s | done].
  - destruct s as [|b s]; simpl.
    + split; [done | intros [t Ht]; discriminate].
    + rewrite andb_true_iff, bool_decide_eq_true, IH. split.
      * intros [-> [t ->]]. by exists t.
      * intros [t Ht]. injection Ht as -> ->. eauto.
Qed.

Lemma startswith_app (p t : pystr) : startswith p (p ++ t) = true.
Proof. apply startswith_prefix. by exists t. Qed.

Lemma startswith_length (p s : pystr) :
  startswith p s = true -> (length p <= length s)%nat.
Proof.
  intros [t ->]%startswith_prefix. rewrite length_app. lia.
Qed.

Lemma find0_Some (s sub : pystr) (i : nat) :
  find0 s sub = Some i ->
  startswith sub (drop i s) = true /\ (i + length sub <= length s)%nat.
Proof.
  revert i. induction s as [|c s IH]; intros i; simpl.
  - destruct (startswith sub []) eqn:E; [|done].
    intros [= <-]. split; [done|]. apply startswith_length in E.
    simpl in *. lia.
  - destruct (startswith sub (c :: s)) eqn:E.
    + intros [= <-]. split; [done|]. apply startswith_length in E.
      simpl in *. lia.
    + destruct (find0 s sub) as [j|] eqn:F; simpl; [|done].
      intros [= <-]. destruct (IH j eq_refl) as [H1 H2]. simpl.
      split; [done | lia].
Qed.

Lemma find0_here (s sub : pystr) :
  startswith sub s = true -> find0 s sub = Some 0%nat.
Proof. intros H. destruct s; simpl in *; by rewrite H. Qed.

Lemma find_Some (s sub : pystr) (start i : nat) :
  find s sub start = Some i ->
  (start <= i)%nat /\ (i + length sub <= length s)%nat /\
  startswith sub (drop i s) = true.
Proof.
  unfold find. destruct (length s <? start)%nat eqn:L; [done|].
  apply Nat.ltb_ge in L.
  destruct (find0 (drop start s) sub) as [j|] eqn:F; simpl; [|done].
  intros [= <-]. apply find0_Some in F as [H1 H2].
  rewrite drop_drop in H1. rewrite length_drop in H2.
  repeat split; [lia | lia | done].
Qed.

(** Searching in [p ++ s] from the end of [p] on is searching in [s]. *)
Lemma find_app_shift (p s sub : pystr) (start : nat) :
  find (p ++ s) sub (length p + start) =
  (fun i => (length p + i)%nat) <$> find s sub start.
Proof.
  unfold find. rewrite length_app.
  replace (length p + length s <? length p + start)%nat
    with (length s <? start)%nat
    by (destruct (Nat.ltb_spec (length s) start),
          (Nat.ltb_spec (length p + length s) (length p + start)); lia).
  destruct (length s <? start)%nat; [done|].
  rewrite drop_app_add'; [|done].
  destruct (find0 (drop start s) sub); simpl; [f_equal; lia | done].
Qed.

(** A one-character delimiter is first found behind a prefix that does
    not contain it. *)
Lemma find_first_char (pre rest : pystr) (c : ascii) :
  c ∉ pre -> find (pre ++ c :: rest) [c] 0 = Some (length pre).
Proof.
  intros Hc. unfold find. rewrite drop_0.
  destruct (length (pre ++ c :: rest) <? 0)%nat eqn:E;
    [by apply Nat.ltb_lt in E; lia|].
  enough (find0 (pre ++ c :: rest) [c] = Some (length pre)) as -> by done.
  induction pre as [|a pre IH]; cbn [app find0 startswith length].
  - by rewrite bool_decide_eq_true_2.
  - assert (c <> a) as Hne
      by (intros ->; apply Hc; by apply elem_of_cons; left).
    assert (c ∉ pre) as Hpre
      by (intros H; apply Hc; by apply elem_of_cons; right).
    rewrite (bool_decide_eq_false_2 _ Hne). cbn [andb]. by rewrite (IH Hpre).
Qed.

Lemma slice_app_shift (p s : pystr) (a b : nat) :
  slice (p ++ s) (length p + a) (length p + b) = slice s a b.
Proof.
  unfold slice. rewrite drop_app_add'; [|done]. f_equal. lia.
Qed.

Lemma slice_length (s : pystr) (a b : nat) :
  (b <= length s)%nat -> length (slice s a b) = (b - a)%nat.
Proof. intros H. unfold slice. rewrite length_take, length_drop. lia. Qed.

End FindFacts.

(** * The scanner [find_tokens] *)

Section Scanner.
Variables (string delim : pystr).
Hypothesis delim_nonempty : delim <> [].

Let delim_pos : (1 <= length delim)%nat.
Proof. destruct delim; [done | simpl; lia]. Qed.

Lemma in_range_find (fuel start : nat) :
  (length string < fuel + start)%nat ->
  in_range string delim fuel (find string delim start).
Proof.
  intros H t Ht. apply find_Some in Ht as (? & ? & _). lia.
Qed.

Lemma find_tokens_loop_fuel (fuel : nat) (off : option nat) :
  in_range string delim fuel off ->
  (find_tokens_loop fuel string delim off).2 <> ScanFuel.
Proof.
  revert off. induction fuel as [|fuel IH]; intros off Hr.
  - destruct off as [t|]; simpl; [|done].
    destruct (Hr t eq_refl). lia.
  - destruct off as [t|]; simpl; [|done].
    destruct (Hr t eq_refl) as [Hr1 Hr2].
    destruct (find string delim (t + length delim)) as [e|] eqn:F; [|done].
    apply find_Some in F as (F1 & F2 & _).
    assert ((find_tokens_loop fuel string delim
               (find string delim (e + length delim))).2 <> ScanFuel) as Hrest
      by (apply IH, in_range_find; lia).
    destruct (e =? t + length delim)%nat; done.
Qed.

Lemma find_tokens_fuel : (find_tokens string delim).2 <> ScanFuel.
Proof.
  unfold find_tokens. apply find_tokens_loop_fuel, in_range_find. lia.
Qed.

(** Any sufficient amount of fuel gives the same run. *)
Lemma find_tokens_loop_more_fuel (fuel fuel' : nat) (off : option nat) :
  in_range string delim fuel off -> (fuel <= fuel')%nat ->
  find_tokens_loop fuel' string delim off =
  find_tokens_loop fuel string delim off.
Proof.
  revert fuel' off. induction fuel as [|fuel IH]; intros fuel' off Hr Hle.
  - destruct off as [t|]; [|by destruct fuel'].
    destruct (Hr t eq_refl). lia.
  - destruct fuel' as [|fuel']; [lia|].
    destruct off as [t|]; simpl; [|done].
    destruct (Hr t eq_refl) as [Hr1 Hr2].
    destruct (find string delim (t + length delim)) as [e|] eqn:F; [|done].
    apply find_Some in F as (F1 & F2 & _).
    rewrite (IH fuel'); [done | apply in_range_find; lia | lia].
Qed.

(** Every yielded token has a non-empty key that is the text between
    two delimiter occurrences. *)
Lemma find_tokens_loop_keys (fuel : nat) (off : option nat) (o : nat)
    (k : pystr) :
  (o, k) ∈ (find_tokens_loop fuel string delim off).1 ->
  k <> [] /\ k = slice string (o + length delim) (o + length delim + length k).
Proof.
  revert off. induction fuel as [|fuel IH]; intros off.
  - destruct off; simpl; intros H; by apply elem_of_nil in H.
  - destruct off as [t|]; simpl; [|intros H; by apply elem_of_nil in H].
    destruct (find string delim (t + length delim)) as [e|] eqn:F;
      [|intros H; by apply elem_of_nil in H].
    apply find_Some in F as (F1 & F2 & _).
    destruct (Nat.eqb_spec e (t + length delim)) as [->|Hne]; [apply IH|].
    simpl. intros [[= -> ->]|H]%elem_of_cons; [|by eapply IH].
    assert (length (slice string (t + length delim) e)
            = (e - (t + length delim))%nat) as Hlen
      by (apply slice_length; lia).
    split.
    + intros Hnil. rewrite Hnil in Hlen. simpl in Hlen. lia.
    + rewrite Hlen. f_equal. lia.
Qed.

End Scanner.

(** * Counting delimiter occurrences *)

Section Counting.
Variables (string delim : pystr).
Hypothesis delim_nonempty : delim <> [].

Lemma count_skip_drop (k : nat) (s : pystr) :
  count_skip k s delim = count_skip 0 (drop k s) delim.
Proof.
  revert k. induction s as [|c s IH]; intros [|k]; simpl; done.
Qed.

Lemma count_find0_None (s : pystr) :
  find0 s delim = None -> count_skip 0 s delim = 0%nat.
Proof.
  induction s as [|c s IH]; simpl; [done|].
  destruct (startswith delim (c :: s)); [done|].
  destruct (find0 s delim); [done | auto].
Qed.

Lemma count_find0_Some (s : pystr) (i : nat) :
  find0 s delim = Some i ->
  count_skip 0 s delim = S (count_skip 0 (drop (i + length delim) s) delim).
Proof.
  revert i. induction s as [|c s IH]; intros i; simpl.
  - destruct delim; [done|]. simpl. done.
  - destruct (startswith delim (c :: s)) eqn:E.
    + intros [= <-]. rewrite count_skip_drop. do 2 f_equal.
      destruct delim; [done|]. simpl. by rewrite Nat.sub_0_r.
    + destruct (find0 s delim) as [j|] eqn:F; simpl; [|done].
      intros [= <-]. by rewrite (IH j).
Qed.

Lemma count_from_find (start : nat) :
  count_from string delim start
  = count_at string delim (find string delim start).
Proof.
  unfold count_from, find.
  destruct (Nat.ltb_spec (length string) start) as [H|H]; simpl.
  - by rewrite drop_ge by lia.
  - destruct (find0 (drop start string) delim) as [i|] eqn:F; simpl.
    + rewrite (count_find0_Some _ _ F). unfold count_from.
      rewrite drop_drop. do 3 f_equal. lia.
    + by apply count_find0_None.
Qed.

(** The generator ends in a mismatch exactly when an odd number of
    delimiter occurrences is left. *)
Lemma find_tokens_loop_parity (fuel : nat) (off : option nat) :
  in_range string delim fuel off ->
  (find_tokens_loop fuel string delim off).2 =
  if Nat.odd (count_at string delim off) then ScanMismatch else ScanDone.
Proof.
  revert off. induction fuel as [|fuel IH]; intros off Hr.
  - destruct off as [t|]; simpl; [|done]. destruct (Hr t eq_refl). lia.
  - destruct off as [t|]; [|done].
    destruct (Hr t eq_refl) as [Hr1 Hr2].
    cbn [find_tokens_loop count_at].
    rewrite (count_from_find (t + length delim)).
    destruct (find string delim (t + length delim)) as [e|] eqn:F; [|done].
    apply find_Some in F as (F1 & F2 & _).
    assert (1 <= length delim)%nat
      by (destruct delim; [done | simpl; lia]).
    cbn [count_at]. rewrite (count_from_find (e + length delim)).
    rewrite Nat.odd_succ, Nat.even_succ.
    rewrite <- (IH (find string delim (e + length delim)))
      by (apply in_range_find; [done | lia]).
    by destruct (e =? t + length delim)%nat.
Qed.

Lemma find_tokens_parity :
  (find_tokens string delim).2 =
  if Nat.odd (count string delim) then ScanMismatch else ScanDone.
Proof.
  unfold find_tokens.
  rewrite find_tokens_loop_parity by (apply in_range_find; [done | lia]).
  rewrite <- count_from_find. by unfold count_from, count.
Qed.

End Counting.

(** For a one-character delimiter [count] is the number of characters of
    the string equal to it. *)
Lemma count_single_char (s : pystr) (c : ascii) :
  count s [c] = length (filter (fun x => x = c) s).
Proof.
  unfold count. induction s as [|a s IH]; [done|].
  cbn [count_skip startswith length Nat.sub]. rewrite andb_true_r.
  rewrite filter_cons. destruct (decide (a = c)) as [->|Hne]; simpl.
  - rewrite bool_decide_eq_true_2 by done. by rewrite IH.
  - by rewrite bool_decide_eq_false_2 by congruence.
Qed.

(** * The interpolation loop *)

Section Interpolation.
Variables (delim : pystr) (status : stat_result)
          (extra_keys : gmap pystr pystr).

Lemma interpolate_loop_written (string : pystr) toks fin last pre acc :
  interpolate_loop string delim status extra_keys toks fin last (pre ++ acc)
  = let* out := interpolate_loop string delim status extra_keys toks fin
                  last acc in
    Return (pre ++ out).
Proof.
  revert last acc. induction toks as [|[o k] toks IH]; intros last acc.
  - destruct fin; simpl; [|done..]. by rewrite app_assoc.
  - cbn [interpolate_loop].
    destruct (match k with [] => Return [] | _ :: _ =>
                resolve_key k status extra_keys end) as [w| |];
      cbn [bind]; [|done..].
    rewrite <- !app_assoc. by rewrite IH.
Qed.

Lemma interpolate_loop_shift (p string : pystr) toks fin last acc :
  interpolate_loop (p ++ string) delim status extra_keys
    (shift_tokens (length p) toks) fin (length p + last) acc
  = interpolate_loop string delim status extra_keys toks fin last acc.
Proof.
  revert last acc. induction toks as [|[o k] toks IH]; intros last acc.
  - destruct fin; simpl; [|done..].
    unfold slice_from. by rewrite drop_app_add'.
  - cbn [shift_tokens map interpolate_loop fst snd].
    rewrite slice_app_shift.
    destruct (match k with [] => Return [] | _ :: _ =>
                resolve_key k status extra_keys end) as [w| |];
      cbn [bind]; [|done..].
    rewrite <- IH. unfold shift_tokens. f_equal. lia.
Qed.

(** A run whose generator ends in a mismatch never returns: it raises
    the mismatch, or the error of a key met before it. *)
Lemma interpolate_loop_mismatch (string : pystr) toks last acc :
  exists e,
    interpolate_loop string delim status extra_keys toks ScanMismatch
      last acc = Raise e /\
    (e = DelimiterMismatch \/
     exists o k, (o, k) ∈ toks /\ resolve_key k status extra_keys = Raise e).
Proof.
  revert last acc. induction toks as [|[o k] toks IH]; intros last acc.
  - exists DelimiterMismatch. by split; [|left].
  - cbn [interpolate_loop]. destruct k as [|c k].
    + cbn [bind]. edestruct IH as (e & -> & [->|(o' & k' & Hin & Hk)]).
      * exists DelimiterMismatch. by split; [|left].
      * exists e. split; [done|]. right. exists o', k'.
        split; [by apply elem_of_cons; right | done].
    + destruct (resolve_key (c :: k) status extra_keys) as [w|e|] eqn:R;
        cbn [bind].
      * edestruct IH as (e & -> & [->|(o' & k' & Hin & Hk)]).
        -- exists DelimiterMismatch. by split; [|left].
        -- exists e. split; [done|]. right. exists o', k'.
           split; [by apply elem_of_cons; right | done].
      * exists e. split; [done|]. right. exists o, (c :: k).
        split; [by apply elem_of_cons; left | done].
      * unfold resolve_key in R. repeat case_match; discriminate.
Qed.

Lemma resolve_key_terminates (k : pystr) :
  resolve_key k status extra_keys <> Diverge.
Proof. unfold resolve_key. by repeat case_match. Qed.

Lemma interpolate_loop_terminates (string : pystr) toks fin last acc :
  fin <> ScanFuel ->
  interpolate_loop string delim status extra_keys toks fin last acc
  <> Diverge.
Proof.
  intros Hfin. revert last acc.
  induction toks as [|[o k] toks IH]; intros last acc.
  - by destruct fin.
  - cbn [interpolate_loop]. destruct k as [|c k]; cbn [bind]; [apply IH|].
    pose proof (resolve_key_terminates (c :: k)).
    destruct (resolve_key (c :: k) status extra_keys); cbn [bind];
      [apply IH | done | done].
Qed.

(** When every key resolves the loop runs to the end of the tokens. *)
Lemma interpolate_loop_resolved (string : pystr) toks last acc :
  (forall o k, (o, k) ∈ toks ->
     exists v, resolve_key k status extra_keys = Return v) ->
  interpolate_loop string delim status extra_keys toks ScanMismatch
    last acc = Raise DelimiterMismatch.
Proof.
  revert last acc. induction toks as [|[o k] toks IH]; intros last acc Hk.
  - done.
  - cbn [interpolate_loop]. destruct k as [|c k]; cbn [bind].
    + apply IH. intros o' k' H. apply (Hk o' k'). by apply elem_of_cons; right.
    + destruct (Hk o (c :: k)) as [v ->]; [by apply elem_of_cons; left|].
      cbn [bind]. apply IH. intros o' k' H. apply (Hk o' k').
      by apply elem_of_cons; right.
Qed.

Hypothesis delim_nonempty : delim <> [].

Lemma interpolate_argument_terminates (string : pystr) :
  interpolate_argument string delim status extra_keys <> Diverge.
Proof.
  unfold interpolate_argument.
  pose proof (find_tokens_fuel string delim delim_nonempty) as Hf.
  destruct (find_tokens string delim) as [toks fin].
  by apply interpolate_loop_terminates.
Qed.

Lemma interpolate_each_terminates (args : list pystr) :
  interpolate_each args delim status extra_keys <> Diverge.
Proof.
  induction args as [|a args IH]; [done|]. cbn [interpolate_each].
  pose proof (interpolate_argument_terminates a).
  destruct (interpolate_argument a delim status extra_keys); cbn [bind];
    [|done..].
  destruct (interpolate_each args delim status extra_keys); by cbn [bind].
Qed.

End Interpolation.

(** * Scanning and interpolating behind a prefix *)

Section Prefix.
Variables (delim : pystr) (status : stat_result)
          (extra_keys : gmap pystr pystr).

Lemma find_tokens_loop_shift (p string : pystr) (fuel : nat)
    (off : option nat) :
  find_tokens_loop fuel (p ++ string) delim
    ((fun i => (length p + i)%nat) <$> off)
  = (shift_tokens (length p) (find_tokens_loop fuel string delim off).1,
     (find_tokens_loop fuel string delim off).2).
Proof.
  revert off. induction fuel as [|fuel IH]; intros [t|]; try done.
  cbn [fmap option_fmap option_map find_tokens_loop].
  rewrite <- Nat.add_assoc, find_app_shift.
  destruct (find string delim (t + length delim)) as [e|]; [|done].
  cbn [fmap option_fmap option_map].
  rewrite <- (Nat.add_assoc (length p) e), find_app_shift, IH.
  rewrite slice_app_shift.
  replace (length p + e =? length p + (t + length delim))%nat
    with (e =? t + length delim)%nat
    by (destruct (Nat.eqb_spec e (t + length delim)),
          (Nat.eqb_spec (length p + e) (length p + (t + length delim)));
        lia).
  by destruct (e =? t + length delim)%nat.
Qed.

Lemma interpolate_loop_prefix (p string : pystr) toks fin :
  interpolate_loop (p ++ string) delim status extra_keys
    (shift_tokens (length p) toks) fin 0 []
  = let* out := interpolate_loop string delim status extra_keys toks fin
                  0 [] in
    Return (p ++ out).
Proof.
  destruct toks as [|[o k] toks].
  - by destruct fin.
  - cbn [shift_tokens map interpolate_loop fst snd].
    unfold slice. rewrite !drop_0, !Nat.sub_0_r, !app_nil_l.
    rewrite take_app_add'; [|done].
    destruct (match k with [] => Return [] | _ :: _ =>
                resolve_key k status extra_keys end) as [w| |];
      cbn [bind]; [|done..].
    rewrite <- app_assoc, <- interpolate_loop_written.
    rewrite <- (interpolate_loop_shift delim status extra_keys p string).
    unfold shift_tokens. f_equal. lia.
Qed.

Hypothesis delim_nonempty : delim <> [].

(** A delimiter directly followed by a second one yields no token: the
    scanner resumes behind the pair. *)
Lemma find_tokens_loop_pair (pre rest : pystr) (fuel : nat) :
  find_tokens_loop (S fuel) (pre ++ delim ++ delim ++ rest) delim
    (Some (length pre))
  = find_tokens_loop fuel (pre ++ delim ++ delim ++ rest) delim
      ((fun i => (length (pre ++ delim ++ delim) + i)%nat)
         <$> find rest delim 0).
Proof.
  cbn [find_tokens_loop].
  assert (find (pre ++ delim ++ delim ++ rest) delim
            (length pre + length delim)
          = Some (length pre + length delim)%nat) as ->.
  { rewrite (app_assoc pre delim), <- (length_app pre delim).
    rewrite <- (Nat.add_0_r (length (pre ++ delim))) at 1.
    rewrite find_app_shift. unfold find at 1.
    rewrite drop_0, (find0_here _ _ (startswith_app delim rest)).
    destruct (length (delim ++ rest) <? 0)%nat eqn:E;
      [by apply Nat.ltb_lt in E; lia|].
    simpl. f_equal. rewrite length_app. lia. }
  rewrite Nat.eqb_refl.
  replace (pre ++ delim ++ delim ++ rest)
    with ((pre ++ delim ++ delim) ++ rest) by (by rewrite <- !app_assoc).
  replace (length pre + length delim + length delim)%nat
    with (length (pre ++ delim ++ delim) + 0)%nat
    by (rewrite !length_app; lia).
  by rewrite find_app_shift.
Qed.

Lemma find_tokens_pair (pre rest : pystr) :
  find (pre ++ delim ++ delim ++ rest) delim 0 = Some (length pre) ->
  find_tokens (pre ++ delim ++ delim ++ rest) delim
  = (shift_tokens (length (pre ++ delim ++ delim))
       (find_tokens rest delim).1,
     (find_tokens rest delim).2).
Proof.
  intros Hfirst. unfold find_tokens at 1. rewrite Hfirst.
  rewrite find_tokens_loop_pair.
  replace (pre ++ delim ++ delim ++ rest)
    with ((pre ++ delim ++ delim) ++ rest) by (by rewrite <- !app_assoc).
  rewrite find_tokens_loop_shift. unfold find_tokens.
  rewrite (find_tokens_loop_more_fuel rest delim delim_nonempty
             (S (length rest))); [done | |].
  - apply in_range_find; [done | lia].
  - rewrite !length_app. destruct delim; [done | simpl; lia].
Qed.

End Prefix.

(** * Claims about the interpolator *)

(** C1 on the code, at ['a%%b'] with delimiter ['%']: the scanner yields
    no token for the pair, and the interpolation gives back ['a%%b'], with
    both delimiter characters in the output, not ['ab']. The loop of
    [interpolate_argument] is written for empty keys, though: had the
    scanner yielded the pair as the token [(1, '')], the [if key:] guard
    would have written nothing for it and the step over the token would
    have dropped it, giving ['ab']. *)
Theorem repeated_delimiter_not_dropped :
  (find_tokens (py "a%%b") (py "%")).1 = [] /\
  interpolate_argument (py "a%%b") (py "%") st0 ∅ = Return (py "a%%b") /\
  interpolate_argument (py "a%%b") (py "%") st0 ∅ <> Return (py "ab") /\
  interpolate_loop (py "a%%b") (py "%") st0 ∅ [(1%nat, [])] ScanDone 0 []
    = Return (py "ab").
Proof. repeat split; by vm_compute. Qed.

(** The same in general: when the first delimiter occurrence of a string
    is directly followed by a second one, no token is yielded for the pair
    (every token has a non-empty key and starts behind the pair), and the
    text up to and including both delimiters is copied to the output,
    followed by the interpolation of the rest. *)
Lemma repeated_delimiter_skipped (pre rest delim : pystr)
    (status : stat_result) (extra_keys : gmap pystr pystr) :
  delim <> [] ->
  find (pre ++ delim ++ delim ++ rest) delim 0 = Some (length pre) ->
  (forall o k,
     (o, k) ∈ (find_tokens (pre ++ delim ++ delim ++ rest) delim).1 ->
     k <> [] /\ (length pre + 2 * length delim <= o)%nat) /\
  interpolate_argument (pre ++ delim ++ delim ++ rest) delim status extra_keys
  = let* out := interpolate_argument rest delim status extra_keys in
    Return (pre ++ delim ++ delim ++ out).
Proof.
  intros Hd Hfirst. pose proof (find_tokens_pair delim Hd pre rest Hfirst) as E.
  split.
  - intros o k Hin. split.
    + by eapply find_tokens_loop_keys.
    + rewrite E in Hin. cbn [fst] in Hin. unfold shift_tokens in Hin.
      apply list_elem_of_fmap in Hin as ([o' k'] & [= -> ->] & _).
      rewrite !length_app. simpl. lia.
  - unfold interpolate_argument. rewrite E.
    destruct (find_tokens rest delim) as [toks fin]. cbn [fst snd].
    replace (pre ++ delim ++ delim ++ rest)
      with ((pre ++ delim ++ delim) ++ rest) by (by rewrite <- !app_assoc).
    rewrite interpolate_loop_prefix.
    destruct (interpolate_loop rest delim status extra_keys toks fin 0 []);
      cbn [bind]; [|done..].
    by rewrite <- !app_assoc.
Qed.

(** ['a%%b%m%']: the pair stays, the token behind it is substituted. *)
Lemma repeated_delimiter_skipped_witness :
  py "%" <> [] /\
  find (py "a" ++ py "%" ++ py "%" ++ py "b%m%") (py "%") 0
    = Some (length (py "a")) /\
  interpolate_argument (py "a" ++ py "%" ++ py "%" ++ py "b%m%") (py "%")
    st0 ∅
  = Return (py "a%%b1700000100").
Proof.
  split; [done|]. split; [reflexivity|].
  rewrite (proj2 (repeated_delimiter_skipped (py "a") (py "b%m%") (py "%")
                    st0 ∅ ltac:(done) eq_refl)).
  reflexivity.
Defined.

(** C2, the resolution order on keys that are already lower case: the
    field registry first, then the extra values, else the bad-key error
    naming the key. *)
Lemma resolve_key_lowercase (key : pystr) (status : stat_result)
    (extra_keys : gmap pystr pystr) :
  lower key = key ->
  resolve_key key status extra_keys =
  match rstat_info !! key with
  | Some fld => Return (repr (getitem status fld))
  | None => match extra_keys !! key with
            | Some v => Return v
            | None => Raise (BadStatKey key)
            end
  end.
Proof.
  intros E. unfold resolve_key. rewrite E.
  destruct (rstat_info !! key); [done|]. by destruct (extra_keys !! key).
Qed.

(** C2 at keys that are not lower case: ['MTIME'] matches the long name
    ['mtime'] without regard to case, yet no value is substituted: the
    registry is subscripted with the key as written and raises KeyError;
    ['PATH'] does not reach the extra value stored under ['path'] and is
    reported as a bad key. *)
Theorem uppercase_key_not_resolved (status : stat_result) (p : pystr) :
  rstat_info !! lower (py "MTIME") = Some ST_MTIME /\
  interpolate_argument (py "%MTIME%") (py "%") status ∅
    = Raise (KeyError (py "MTIME")) /\
  ({[ py "path" := p ]} : gmap pystr pystr) !! lower (py "PATH") = Some p /\
  interpolate_argument (py "%PATH%") (py "%") status {[ py "path" := p ]}
    = Raise (BadStatKey (py "PATH")).
Proof. repeat split; by vm_compute. Qed.

(** * Vector interpolation *)

Section Vector.
Variables (delim : pystr) (status : stat_result)
          (keys : gmap pystr pystr).

(** An error of the loop is the first one met: the error of the first
    key that does not resolve, or the generator's mismatch after all keys
    have resolved. *)
Lemma interpolate_loop_first_error (string : pystr) toks fin last acc e :
  (forall o k, (o, k) ∈ toks -> k <> []) ->
  interpolate_loop string delim status keys toks fin last acc = Raise e ->
  (e = DelimiterMismatch /\ fin = ScanMismatch /\
   forall o k, (o, k) ∈ toks ->
     exists v, resolve_key k status keys = Return v) \/
  exists toks1 o k toks2,
    toks = toks1 ++ (o, k) :: toks2 /\
    (forall o' k', (o', k') ∈ toks1 ->
       exists v, resolve_key k' status keys = Return v) /\
    resolve_key k status keys = Raise e.
Proof.
  revert last acc. induction toks as [|[o k] toks IH]; intros last acc Hkeys.
  - destruct fin; simpl; [done | | done]. intros [= <-]. left.
    split; [done|]. split; [done|]. intros o k H. by apply elem_of_nil in H.
  - cbn [interpolate_loop]. destruct k as [|c k].
    { exfalso. apply (Hkeys o []); [by apply elem_of_cons; left | done]. }
    assert (forall o' k', (o', k') ∈ toks -> k' <> []) as Hkeys'
      by (intros o' k' H; apply (Hkeys o'); by apply elem_of_cons; right).
    destruct (resolve_key (c :: k) status keys) as [v|e'|] eqn:R;
      cbn [bind]; [| |done].
    + intros [(-> & -> & Hall)|(toks1 & o' & k' & toks2 & -> & Hall & Hk)]
        %IH; [| |done].
      * left. split; [done|]. split; [done|].
        intros o' k' [[= -> ->]|H]%elem_of_cons; [by exists v | by eapply Hall].
      * right. exists ((o, c :: k) :: toks1), o', k', toks2.
        split; [done|]. split; [|done].
        intros o'' k'' [[= -> ->]|H]%elem_of_cons;
          [by exists v | by eapply Hall].
    + intros [= ->]. right. exists [], o, (c :: k), toks.
      split; [done|]. split; [|done].
      intros o' k' H. by apply elem_of_nil in H.
Qed.

Hypothesis delim_nonempty : delim <> [].

Lemma interpolate_argument_odd (a : pystr) :
  Nat.odd (count a delim) = true ->
  exists e, interpolate_argument a delim status keys = Raise e.
Proof.
  intros Hodd. unfold interpolate_argument.
  pose proof (find_tokens_parity a delim delim_nonempty) as P.
  rewrite Hodd in P. destruct (find_tokens a delim) as [toks fin].
  cbn [snd] in P. subst fin.
  destruct (interpolate_loop_mismatch delim status keys a toks 0 [])
    as (e & -> & _). by exists e.
Qed.

Lemma interpolate_argument_first_error (a : pystr) (e : exn) :
  interpolate_argument a delim status keys = Raise e ->
  first_failure delim status keys [a] 0 e.
Proof.
  intros Ha. exists a. split; [done|]. split; [intros i' b Hi'; lia|].
  split; [done|]. revert Ha. unfold interpolate_argument.
  destruct (find_tokens a delim) as [toks fin] eqn:F. cbn [fst snd].
  apply interpolate_loop_first_error. intros o k Hin.
  assert ((o, k) ∈ (find_tokens a delim).1) as Hin' by (by rewrite F).
  by apply find_tokens_loop_keys in Hin' as [? _].
Qed.

(** The vector fails at the first argument that does not interpolate,
    which is the argument with the odd count or an earlier one. *)
Lemma interpolate_each_odd (args : list pystr) (j : nat) (arg : pystr) :
  args !! j = Some arg -> Nat.odd (count arg delim) = true ->
  exists e i, (i <= j)%nat /\
              interpolate_each args delim status keys = Raise e /\
              first_failure delim status keys args i e.
Proof.
  revert j. induction args as [|a args IH]; intros j Hj Hodd; [done|].
  cbn [interpolate_each].
  destruct (interpolate_argument a delim status keys) as [v|e|] eqn:Ea;
    cbn [bind].
  - destruct j as [|j].
    { injection Hj as ->.
      destruct (interpolate_argument_odd arg Hodd) as [e He]. congruence. }
    destruct (IH j Hj Hodd) as (e & i & Hi & -> & b & Hb & Hbefore & Hrest).
    exists e, (S i). split; [lia|]. split; [done|].
    exists b. split; [done|]. split; [|done].
    intros [|i'] c Hlt Hc; [injection Hc as <-; by exists v|].
    apply (Hbefore i'); [lia | done].
  - exists e, 0%nat. split; [lia|]. split; [done|].
    destruct (interpolate_argument_first_error a e Ea)
      as (b & [= <-] & _ & Hb & Hrest).
    exists a. split; [done|]. split; [intros i' c Hi'; lia | done].
  - by apply interpolate_argument_terminates in Ea.
Qed.

Lemma interpolate_each_length (args vs : list pystr) :
  interpolate_each args delim status keys = Return vs ->
  length vs = length args.
Proof.
  revert vs. induction args as [|a args IH]; intros vs; simpl.
  - by intros [= <-].
  - destruct (interpolate_argument a delim status keys); cbn [bind];
      [|done..].
    destruct (interpolate_each args delim status keys) as [ws| |];
      cbn [bind]; [|done..].
    intros [= <-]. simpl. f_equal. by apply IH.
Qed.

End Vector.




(** * One entry of the watch list *)

Lemma list_to_set_nonempty (fields : list field) :
  fields <> [] -> (list_to_set fields : gset field) <> ∅.
Proof.
  destruct fields as [|f fields]; [done|]. intros _ H.
  assert (f ∈ (list_to_set (f :: fields) : gset field)) as Hin
    by (apply elem_of_list_to_set, elem_of_cons; by left).
  rewrite H in Hin. by apply not_elem_of_empty in Hin.
Qed.

Lemma cons_neq_self {A} (x : A) (l : list A) : l <> x :: l.
Proof. intros H. apply (f_equal length) in H. simpl in H. lia. Qed.

Section Entry.
Variables (env : Env) (limit : Z) (retry : bool) (softtimeout timeout : Q).

Lemma end_of_entry_eq (path : pystr) (next_status : option stat_result)
    (l : locals) (w : World) :
  end_of_entry env limit softtimeout timeout path next_status l w =
  let l' := entry_locals env path next_status l w in
  if stop_after_entry limit softtimeout timeout l'
  then (Return (Break, set_continu (Some false) l'), tick w)
  else (Return (Next, l'), tick w).
Proof.
  unfold end_of_entry, mbind, time_time, entry_locals, set_now. cbn.
  by case_match.
Qed.

(** The body on a path that exists. *)
Lemma poll_entry_present (path : pystr) (fields : list field)
    (l : locals) (w : World) (last_status : option stat_result)
    (next : stat_result) :
  stats l !! path = Some last_status ->
  os_stat env path (stat_count w path) = StatOk next ->
  poll_entry env limit retry softtimeout timeout (path, fields) l w =
  let fields := match fields with [] => [ST_MTIME] | _ :: _ => fields end in
  let diff_fields := diff_of fields last_status next in
  let w1 := record_stat path w in
  if bool_decide (diff_fields <> ∅) then
    let c := {| call_path := path; call_diff := diff_fields;
                call_last := last_status; call_next := next |} in
    let r := callback env (length (called w)) c in
    let l1 := {| now := now l; ncalls := ncalls l + 1; stats := stats l;
                 continu := r |} in
    match r with
    | Some false => (Return (Break, l1), record_call c w1)
    | _ => end_of_entry env limit softtimeout timeout path (Some next) l1
             (record_call c w1)
    end
  else end_of_entry env limit softtimeout timeout path (Some next) l w1.
Proof.
  intros Hlast Hstat.
  unfold poll_entry, mbind, try_stat, os_stat_call. rewrite Hstat, Hlast.
  cbn [ret]. case_bool_decide; [|done].
  cbn [call_callback record_stat called]. unfold set_continu. cbn.
  by destruct (callback env _ _) as [[|]|].
Qed.

(** With no configured field, only the modification time is compared. *)
Lemma differing_mtime (last next : stat_result) :
  differing [ST_MTIME] last next =
  if bool_decide (getitem last ST_MTIME <> getitem next ST_MTIME)
  then {[ST_MTIME]} else ∅.
Proof.
  unfold differing. cbn [foldl]. case_bool_decide; [|done].
  by rewrite (left_id_L ∅ (∪)).
Qed.

End Entry.

Section EntryClaims.
Variables (env : Env) (limit : Z) (retry : bool) (softtimeout timeout : Q).

(** What one run of the body does to the callback log and to the stored
    snapshot of its path. *)
Lemma poll_entry_inv (path : pystr) (fields : list field) (l l' : locals)
    (w w' : World) (ctl : control) :
  poll_entry env limit retry softtimeout timeout (path, fields) l w
    = (Return (ctl, l'), w') ->
  (called w' = called w /\ ncalls l' = ncalls l /\
   exists next_status, stats l' = <[path := next_status]> (stats l)) \/
  (exists c,
     called w' = c :: called w /\ ncalls l' = ncalls l + 1 /\
     call_path c = path /\
     ((callback env (length (called w)) c = Some false /\
       ctl = Break /\ stats l' = stats l) \/
      (callback env (length (called w)) c <> Some false /\
       stats l' = <[path := Some (call_next c)]> (stats l)))).
Proof.
  unfold poll_entry, mbind, try_stat, os_stat_call.
  destruct (os_stat env path (stat_count w path)) as [next|errno];
    cbn [negb].
  - destruct (stats l !! path) as [last_status|]; cbn [ret raise]; [|done].
    case_bool_decide.
    + cbn [call_callback].
      change (called (record_stat path w)) with (called w).
      set (c := Build_call _ _ _ _).
      destruct (callback env (length (called w)) c) as [[|]|] eqn:R.
      2:{ cbn [ret]. intros [= <- <- <-]. right. exists c.
          repeat split; try done. by left. }
      all: rewrite end_of_entry_eq; cbn zeta;
        destruct (stop_after_entry _ _ _ _);
        intros [= <- <- <-]; right; exists c;
        (repeat split; try done); right; by rewrite R.
    + rewrite end_of_entry_eq; cbn zeta;
        destruct (stop_after_entry _ _ _ _);
        intros [= <- <- <-]; left; eauto.
  - destruct (negb (errno =? ENOENT)); [done|].
    destruct (negb retry); [done|].
    destruct (stats l !! path) as [last_status|]; cbn [ret raise]; [|done].
    rewrite end_of_entry_eq; cbn zeta;
        destruct (stop_after_entry _ _ _ _);
      intros [= <- <- <-]; left; eauto.
Qed.

(** C3, amended: when the callback is invoked for a path and returns a
    value that lets the loop continue ([None] or a true value), the stored
    snapshot of that path becomes the fresh snapshot; when it returns the
    stop value, the body breaks before the update and the stored snapshots
    are left as they were. *)
Theorem snapshot_updated_unless_stopped (path : pystr)
    (fields : list field) (l l' : locals) (w w' : World) (ctl : control)
    (c : call) :
  poll_entry env limit retry softtimeout timeout (path, fields) l w
    = (Return (ctl, l'), w') ->
  called w' = c :: called w ->
  (callback env (length (called w)) c <> Some false ->
   stats l' = <[path := Some (call_next c)]> (stats l)) /\
  (callback env (length (called w)) c = Some false ->
   ctl = Break /\ stats l' = stats l).
Proof.
  intros [(Hc & _)|(c' & Hc & _ & _ & H)]%poll_entry_inv Hcalled.
  - rewrite Hc in Hcalled. by apply cons_neq_self in Hcalled.
  - rewrite Hc in Hcalled. injection Hcalled as ->.
    destruct H as [(R & -> & ->)|(R & ->)]; split; done.
Qed.

(** C7: a path whose stored state is "no snapshot" and that now exists
    has the callback invoked with the whole field set of its entry as
    diff set (the modification time alone when the entry configures no
    field), whatever the values of the fresh snapshot are. *)
Theorem created_path_full_diff (path : pystr) (fields : list field)
    (l : locals) (w : World) (next : stat_result) :
  stats l !! path = Some None ->
  os_stat env path (stat_count w path) = StatOk next ->
  exists r w',
    poll_entry env limit retry softtimeout timeout (path, fields) l w
      = (Return r, w') /\
    called w' =
      {| call_path := path;
         call_diff :=
           list_to_set
             (match fields with [] => [ST_MTIME] | _ :: _ => fields end);
         call_last := None; call_next := next |} :: called w.
Proof.
  intros Hlast Hstat.
  rewrite (poll_entry_present _ _ _ _ _ _ _ _ _ _ _ Hlast Hstat).
  cbn zeta. cbn [diff_of].
  rewrite bool_decide_eq_true_2
    by (apply list_to_set_nonempty; by destruct fields).
  destruct (callback env _ _) as [[|]|]; [| by eauto |];
    rewrite end_of_entry_eq; cbn zeta;
    destruct (stop_after_entry _ _ _ _); eauto.
Qed.


End EntryClaims.

(** * Concrete runs *)

(** C3, as stated, fails: with a callback that returns the stop value the
    loop ends with the snapshot taken at the start still stored for the
    path, although the callback was invoked with a fresh snapshot that
    differs from it. *)
Lemma snapshot_not_updated_on_stop :
  exists soft hard l w,
    watchstat_loop env_stop 1 [(tmp_f, [ST_MTIME])] 1000 0 false None None
      world0 = (Return (soft, hard, l), w) /\
    called w = [ {| call_path := tmp_f; call_diff := {[ST_MTIME]};
                    call_last := Some st0; call_next := touched st0 1 |} ] /\
    stats l !! tmp_f = Some (Some st0) /\
    stats l !! tmp_f <> Some (Some (touched st0 1)).
Proof.
  eexists _, _, _, _. split; [by vm_compute|].
  split; [by vm_compute|]. split; [by vm_compute|]. by vm_compute.
Qed.

(** A changed file and a callback that returns [True]: the fresh snapshot
    is stored. *)
Lemma snapshot_updated_unless_stopped_witness :
  let c := {| call_path := tmp_f; call_diff := {[ST_MTIME]};
              call_last := Some st0; call_next := touched st0 1 |} in
  let l' := entry_locals env_touch tmp_f (Some (touched st0 1))
              {| now := 0; ncalls := 1; stats := {[ tmp_f := Some st0 ]};
                 continu := Some true |}
              (record_call c (record_stat tmp_f world1)) in
  let w' := tick (record_call c (record_stat tmp_f world1)) in
  poll_entry env_touch 0 false maxsize maxsize (tmp_f, [ST_MTIME])
    (locals1 (Some st0)) world1 = (Return (Next, l'), w') /\
  called w' = c :: called world1 /\
  stats l' = <[tmp_f := Some (touched st0 1)]> (stats (locals1 (Some st0))).
Proof.
  intros c l' w'.
  assert (poll_entry env_touch 0 false maxsize maxsize (tmp_f, [ST_MTIME])
            (locals1 (Some st0)) world1 = (Return (Next, l'), w')) as E
    by (by vm_compute).
  assert (called w' = c :: called world1) as Ec by reflexivity.
  split; [exact E|]. split; [exact Ec|].
  apply (snapshot_updated_unless_stopped env_touch 0 false maxsize maxsize
           tmp_f [ST_MTIME] (locals1 (Some st0)) l' world1 w' Next c E Ec).
  by vm_compute.
Defined.

(** A file that was missing and now exists, watched for size and mode. *)
Lemma created_path_full_diff_witness :
  stats (locals1 None) !! tmp_f = Some None /\
  os_stat env_created tmp_f (stat_count world1 tmp_f) = StatOk st0 /\
  exists r w',
    poll_entry env_created 0 true maxsize maxsize
      (tmp_f, [ST_SIZE; ST_MODE]) (locals1 None) world1 = (Return r, w') /\
    called w' =
      {| call_path := tmp_f; call_diff := list_to_set [ST_SIZE; ST_MODE];
         call_last := None; call_next := st0 |} :: called world1.
Proof.
  assert (stats (locals1 None) !! tmp_f = Some None) as H1 by (by vm_compute).
  assert (os_stat env_created tmp_f (stat_count world1 tmp_f) = StatOk st0)
    as H2 by (by vm_compute).
  split; [exact H1|]. split; [exact H2|].
  exact (created_path_full_diff env_created 0 true maxsize maxsize tmp_f
           [ST_SIZE; ST_MODE] (locals1 None) world1 st0 H1 H2).
Defined.


(** * The loop and its outcome *)

Lemma Qgeb_true (x y : Q) : Qgeb x y = true <-> (y <= x)%Q.
Proof. unfold Qgeb. apply Qle_bool_iff. Qed.

Lemma Qgeb_false (x y : Q) : Qgeb x y = false <-> (x < y)%Q.
Proof.
  unfold Qgeb. rewrite <- not_true_iff_false, Qle_bool_iff.
  split; [apply Qnot_le_lt | apply Qlt_not_le].
Qed.

Lemma Qltb_true (x y : Q) : Qltb x y = true <-> (x < y)%Q.
Proof. unfold Qltb. rewrite negb_true_iff. apply Qgeb_false. Qed.

Lemma Qltb_false (x y : Q) : Qltb x y = false <-> (y <= x)%Q.
Proof. unfold Qltb. rewrite negb_false_iff. apply Qgeb_true. Qed.

Section Outcome.
Variables (softtimeout timeout : Q).

Lemma outcome_soft (l : locals) :
  outcome softtimeout timeout l = Raise SoftTimeout <->
  ncalls l = 0 /\ (softtimeout <= now l)%Q.
Proof.
  unfold outcome. destruct (Z.eqb_spec (ncalls l) 0) as [E|E]; cbn [andb].
  - destruct (Qgeb (now l) softtimeout) eqn:G.
    + apply Qgeb_true in G. by split.
    + apply Qgeb_false in G. destruct (Qgeb (now l) timeout); split;
        try done; intros [_ H]; by apply Qle_not_lt in H.
  - destruct (Qgeb (now l) timeout); split; try done; by intros [? _].
Qed.

Lemma outcome_hard (l : locals) :
  outcome softtimeout timeout l = Raise Timeout <->
  ~ (ncalls l = 0 /\ (softtimeout <= now l)%Q) /\ (timeout <= now l)%Q.
Proof.
  unfold outcome. destruct (Z.eqb_spec (ncalls l) 0) as [E|E]; cbn [andb].
  - destruct (Qgeb (now l) softtimeout) eqn:G.
    + apply Qgeb_true in G. split; [done|]. intros [H _]. by destruct H.
    + apply Qgeb_false in G. destruct (Qgeb (now l) timeout) eqn:G'.
      * apply Qgeb_true in G'. split; [|done]. intros _.
        split; [|done]. intros [_ H]. by apply Qle_not_lt in H.
      * apply Qgeb_false in G'. split; [done|].
        intros [_ H]. by apply Qle_not_lt in H.
  - destruct (Qgeb (now l) timeout) eqn:G'.
    + apply Qgeb_true in G'. split; [|done]. intros _.
      split; [|done]. by intros [? _].
    + apply Qgeb_false in G'. split; [done|].
      intros [_ H]. by apply Qle_not_lt in H.
Qed.

Lemma outcome_return (l : locals) :
  (ncalls l <> 0 \/ (now l < softtimeout)%Q) -> (now l < timeout)%Q ->
  outcome softtimeout timeout l = Return (ncalls l).
Proof.
  intros Hs Hh. unfold outcome. apply Qgeb_false in Hh. rewrite Hh.
  destruct Hs as [Hs|Hs].
  - by destruct (Z.eqb_spec (ncalls l) 0).
  - apply Qgeb_false in Hs. rewrite Hs. by rewrite andb_false_r.
Qed.

End Outcome.

(** * Counting the invocations *)

(** The head of a cycle in a run that goes on: the conversion of the
    interval and the sleep raise nothing. *)
Ltac pass_sleep :=
  unfold mbind at 1, int_to_float;
  destruct (float_limit <=? _); [done|];
  unfold mbind at 1, time_sleep;
  destruct (sleep_overflow _); [done|];
  destruct (Qltb _ 0); [done|].

Section Invocations.
Variables (env : Env) (watchlist : list (pystr * list field))
          (interval limit : Z) (retry : bool) (softtimeout timeout : Q).

Lemma poll_entry_next (entry : pystr * list field) (l l' : locals)
    (w w' : World) :
  poll_entry env limit retry softtimeout timeout entry l w
    = (Return (Next, l'), w') ->
  stop_after_entry limit softtimeout timeout l' = false.
Proof.
  destruct entry as [path fields].
  unfold poll_entry, mbind, try_stat, os_stat_call.
  destruct (os_stat env path (stat_count w path)) as [next|errno];
    cbn [negb].
  - destruct (stats l !! path) as [last_status|]; cbn [ret raise]; [|done].
    case_bool_decide.
    + cbn [call_callback].
      destruct (callback env _ _) as [[|]|]; [| done |];
        rewrite end_of_entry_eq; cbn zeta;
        destruct (stop_after_entry _ _ _ _) eqn:E;
        intros [= <- <-]; done.
    + rewrite end_of_entry_eq; cbn zeta;
        destruct (stop_after_entry _ _ _ _) eqn:E;
        intros [= <- <-]; done.
  - destruct (negb (errno =? ENOENT)); [done|].
    destruct (negb retry); [done|].
    destruct (stats l !! path) as [last_status|]; cbn [ret raise]; [|done].
    rewrite end_of_entry_eq; cbn zeta;
      destruct (stop_after_entry _ _ _ _) eqn:E;
      intros [= <- <-]; done.
Qed.

Lemma stop_after_entry_false (l : locals) :
  stop_after_entry limit softtimeout timeout l = false ->
  0 < limit -> ncalls l < limit.
Proof.
  unfold stop_after_entry. intros H Hl.
  apply orb_false_iff in H as [H _]. apply orb_false_iff in H as [H _].
  apply andb_false_iff in H as [H|H]; [apply Z.ltb_ge in H | apply Z.leb_gt in H];
    lia.
Qed.

Lemma for_watchlist_counted (base : Z) (wl : list (pystr * list field))
    (l l' : locals) (w w' : World) (ctl : control) :
  for_watchlist env limit retry softtimeout timeout wl l w
    = (Return (ctl, l'), w') ->
  counted base l w -> (0 < limit -> ncalls l < limit) ->
  counted base l' w' /\ within_limit limit l'.
Proof.
  revert l w. induction wl as [|[path fields] wl IH]; intros l w.
  - cbn [for_watchlist ret]. intros [= <- <- <-] Hc Hl.
    split; [done|]. intros H. specialize (Hl H). lia.
  - cbn [for_watchlist]. unfold mbind at 1.
    destruct (poll_entry _ _ _ _ _ _ _ _) as [[[c1 l1]| |] w1] eqn:E;
      [|done..].
    intros Hrest Hc Hl.
    assert (counted base l1 w1 /\ ncalls l1 <= ncalls l + 1) as [Hc1 Hn1].
    { destruct (poll_entry_inv _ _ _ _ _ _ _ _ _ _ _ _ E)
        as [(Hcalled & Hn & _)|(c & Hcalled & Hn & _)];
        unfold counted in *; rewrite Hcalled, Hn; cbn [length]; lia. }
    cbn [fst snd] in Hrest. destruct c1.
    + apply poll_entry_next in E.
      apply (IH l1 w1); [done | done |].
      by apply stop_after_entry_false.
    + cbn [ret] in Hrest. injection Hrest as <- <- <-.
      split; [done|]. intros H. specialize (Hl H). lia.
Qed.

Lemma while_loop_counted (base : Z) (fuel : nat) (l l' : locals)
    (w w' : World) :
  while_loop env watchlist interval limit retry softtimeout timeout fuel l w
    = (Return l', w') ->
  counted base l w -> within_limit limit l ->
  counted base l' w' /\ within_limit limit l'.
Proof.
  revert l w. induction fuel as [|fuel IH]; intros l w.
  - cbn [while_loop]. destruct (loop_condition _ _ _ _); [done|].
    cbn [ret]. by intros [= <- <-].
  - cbn [while_loop]. destruct (loop_condition _ _ _ _) eqn:Hcond;
      [|cbn [ret]; by intros [= <- <-]].
    pass_sleep.
    unfold mbind at 1, time_time at 1.
    destruct (_ || _).
    { cbn [ret]. intros [= <- <-] Hc Hl. done. }
    unfold mbind at 1.
    destruct (for_watchlist _ _ _ _ _ _ _ _) as [[[c1 l1]| |] w1] eqn:E;
      [|done..].
    intros Hrest Hc Hl.
    apply (for_watchlist_counted base) in E as [Hc1 Hl1]; [|done|].
    2:{ intros H. cbn [ncalls set_now set_continu].
        unfold loop_condition in Hcond.
        apply andb_true_iff in Hcond as [Hcond _].
        apply andb_true_iff in Hcond as [Hcond _].
        apply orb_true_iff in Hcond as [Hcond|Hcond];
          [apply Z.leb_le in Hcond | apply Z.ltb_lt in Hcond]; lia. }
    cbn [snd] in Hrest.
    assert (forall t, counted base (set_now t l1) (tick w1) /\
                      within_limit limit (set_now t l1)) as Hnext by done.
    destruct (continu l1) as [[|]|].
    + unfold mbind, time_time in Hrest. by eapply IH, Hnext.
    + cbn [ret] in Hrest. by injection Hrest as <- <-.
    + unfold mbind, time_time in Hrest. by eapply IH, Hnext.
Qed.

Lemma initial_stats_called (wl : list (pystr * list field))
    (acc stats0 : gmap pystr (option stat_result)) (w w' : World) :
  initial_stats env retry wl acc w = (Return stats0, w') ->
  called w' = called w.
Proof.
  revert acc w. induction wl as [|[path fields] wl IH]; intros acc w.
  - cbn [initial_stats ret]. by intros [= _ <-].
  - cbn [initial_stats]. unfold mbind, try_stat, os_stat_call.
    destruct (os_stat env path (stat_count w path)) as [st|errno].
    + intros H. by apply IH in H.
    + destruct (negb (errno =? ENOENT)); [done|].
      destruct (negb retry); [done|]. intros H. by apply IH in H.
Qed.

End Invocations.

(** In any run of the loop that ends, [ncalls] is the number of
    invocations the callback received, and a positive limit is never
    exceeded. *)
Lemma calls_never_exceed_limit (env : Env) (fuel : nat)
    (watchlist : list (pystr * list field)) (interval limit : Z)
    (retry : bool) (softtimeout timeout : option Q) (w w' : World)
    (soft hard : Q) (l : locals) :
  watchstat_loop env fuel watchlist interval limit retry softtimeout timeout
    w = (Return (soft, hard, l), w') ->
  Z.of_nat (length (called w')) = Z.of_nat (length (called w)) + ncalls l /\
  (0 < limit -> ncalls l <= limit).
Proof.
  unfold watchstat_loop, mbind, time_time.
  destruct (initial_stats _ _ _ _ _) as [[stats0| |] w0] eqn:E0; [|done..].
  apply initial_stats_called in E0. cbn [called tick] in E0.
  destruct (while_loop _ _ _ _ _ _ _ _ _ _) as [[l1| |] w1] eqn:E1;
    [|done..].
  cbn [ret]. intros [= <- <- <- <-].
  apply (while_loop_counted env watchlist interval limit retry _ _
           (Z.of_nat (length (called w)))) in E1 as [Hc Hl]; [done | |].
  - unfold counted. cbn [ncalls]. rewrite E0. lia.
  - intros H. cbn [ncalls]. lia.
Qed.

Section Watchstat.
Variables (env : Env) (fuel : nat) (watchlist : list (pystr * list field))
          (interval limit : Z) (retry : bool)
          (softtimeout timeout : option Q).

(** [watchstat] is its loop followed by the termination outcome; the
    deadlines are computed from the first reading of the clock. *)
Lemma watchstat_loop_return (w w' : World) (soft hard : Q) (l : locals) :
  watchstat_loop env fuel watchlist interval limit retry softtimeout
    timeout w = (Return (soft, hard, l), w') ->
  soft = deadline (clock env (time_calls w)) softtimeout /\
  hard = deadline (clock env (time_calls w)) timeout /\
  watchstat env fuel watchlist interval limit retry softtimeout timeout w
    = (outcome soft hard l, w').
Proof.
  intros E. unfold watchstat, mbind at 1. rewrite E.
  enough (soft = deadline (clock env (time_calls w)) softtimeout /\
          hard = deadline (clock env (time_calls w)) timeout)
    as [? ?] by done.
  revert E. unfold watchstat_loop, mbind, time_time.
  destruct (initial_stats _ _ _ _ _) as [[stats0| |] w1]; [|done..].
  destruct (while_loop _ _ _ _ _ _ _ _ _ _) as [[l1| |] w2]; [|done..].
  cbn [ret]. by intros [= <- <- <- <-].
Qed.

(** C8: when the loop ends, with [ncalls] invocations of the callback made
    and [now] the last reading of the clock, [SoftTimeout] is raised
    exactly when no invocation was made and the reading has reached the
    soft deadline, also when it has reached the hard deadline as well;
    [Timeout] is raised exactly when that is not the case and the reading
    has reached the hard deadline, in particular when it has and an
    invocation was made; an end before both deadlines returns the number
    of invocations. *)
Theorem timeout_signals (w w' : World) (soft hard : Q) (l : locals) :
  watchstat_loop env fuel watchlist interval limit retry softtimeout
    timeout w = (Return (soft, hard, l), w') ->
  let r := (watchstat env fuel watchlist interval limit retry softtimeout
              timeout w).1 in
  Z.of_nat (length (called w')) = Z.of_nat (length (called w)) + ncalls l /\
  (r = Raise SoftTimeout <-> ncalls l = 0 /\ (soft <= now l)%Q) /\
  (r = Raise Timeout <->
     ~ (ncalls l = 0 /\ (soft <= now l)%Q) /\ (hard <= now l)%Q) /\
  ((hard <= now l)%Q -> ncalls l <> 0 -> r = Raise Timeout) /\
  ((now l < soft)%Q -> (now l < hard)%Q -> r = Return (ncalls l)).
Proof.
  intros E. split; [by eapply calls_never_exceed_limit|].
  apply watchstat_loop_return in E as (_ & _ & ->). cbn [fst].
  split; [apply outcome_soft|]. split; [apply outcome_hard|]. split.
  - intros Hh Hn. apply outcome_hard. split; [|done]. by intros [? _].
  - intros Hs Hh. apply outcome_return; [by right | done].
Qed.

End Watchstat.

(** Soft timeout 1, timeout 10, interval 2000 ms, a file that never
    changes: the loop ends at the first reading after the sleep, with
    SoftTimeout and before the hard deadline. *)
Lemma timeout_signals_witness :
  exists soft hard l w',
    watchstat_loop env_idle 1 [(tmp_f, [ST_MTIME])] 2000 1 false
      (Some 1%Q) (Some 10%Q) world0 = (Return (soft, hard, l), w') /\
    (ncalls l = 0 /\ (soft <= now l)%Q) /\
    (now l < hard)%Q /\
    (watchstat env_idle 1 [(tmp_f, [ST_MTIME])] 2000 1 false
       (Some 1%Q) (Some 10%Q) world0).1 = Raise SoftTimeout.
Proof.
  destruct (watchstat_loop env_idle 1 [(tmp_f, [ST_MTIME])] 2000 1 false
              (Some 1%Q) (Some 10%Q) world0)
    as [[[[soft hard] l]| |] w'] eqn:E; [|by vm_compute in E..].
  assert (ncalls l = 0 /\ (soft <= now l)%Q) as H.
  { assert (E0 := E). vm_compute in E0. injection E0 as <- <- <- <-.
    split; [reflexivity | by vm_compute]. }
  exists soft, hard, l, w'. split; [reflexivity|]. split; [exact H|]. split.
  - assert (E0 := E). vm_compute in E0. by injection E0 as <- <- <- <-.
  - by apply (proj1 (proj2 (timeout_signals env_idle 1 [(tmp_f, [ST_MTIME])]
                              2000 1 false (Some 1%Q) (Some 10%Q) world0 w'
                              soft hard l E))).
Defined.

(** * The sleep of a poll cycle *)

(** The nanoseconds of a sleep that is not negative and at most
    [k / 1000] seconds. *)
Lemma sleep_ns_bounds (secs : Q) (k : Z) :
  (0 <= secs)%Q -> (secs <= inject_Z k / 1000)%Q ->
  0 <= sleep_ns secs <= k * 1000000.
Proof.
  destruct secs as [n d]. unfold Qle, sleep_ns. cbn.
  intros Hn Hk. assert (0 <= n) as Hn' by lia.
  destruct (Z.leb_spec 0 (n * 1000000000)) as [_|?]; [|lia].
  pose proof (Z.div_le_upper_bound (- (n * 1000000000)) (Z.pos d) 0
                ltac:(lia) ltac:(lia)).
  pose proof (Z.div_le_lower_bound (- (n * 1000000000)) (Z.pos d)
                (- (k * 1000000)) ltac:(lia) ltac:(lia)).
  lia.
Qed.

(** A sleep of at most [interval / 1000] seconds, for an interval below
    [2^63] nanoseconds, raises nothing. *)
Lemma sleep_in_range (interval : Z) (secs : Q) :
  0 <= interval -> interval * 1000000 < 2 ^ 63 ->
  (0 <= secs)%Q -> (secs <= inject_Z interval / 1000)%Q ->
  sleep_error interval secs = None.
Proof.
  intros Hi Hsmall H0 Hle. unfold sleep_error, sleep_overflow.
  pose proof (sleep_ns_bounds secs interval H0 Hle) as Hns.
  assert (2 ^ 63 < float_limit) as Hf by (by vm_compute).
  rewrite (proj2 (Z.leb_gt _ _)) by lia.
  rewrite (proj2 (Z.ltb_ge _ _)) by lia.
  rewrite (proj2 (Z.leb_gt _ _)) by lia.
  cbn [orb]. by rewrite (proj2 (Qltb_false _ _)).
Qed.

Section Sleep.
Variables (env : Env) (watchlist : list (pystr * list field))
          (interval limit : Z) (retry : bool) (softtimeout timeout : Q).

(** The head of a cycle: what the conversion of the interval and the
    sleep raise ends the loop, before the clock is read again. *)
Lemma while_loop_sleep_error (fuel : nat) (l : locals) (w : World)
    (e : exn) :
  loop_condition limit softtimeout timeout l = true ->
  sleep_error interval (sleep_dur interval softtimeout timeout
                          (set_continu (Some true) l)) = Some e ->
  while_loop env watchlist interval limit retry softtimeout timeout
    (S fuel) l w = (Raise e, w).
Proof.
  intros Hc. cbn [while_loop]. rewrite Hc.
  unfold sleep_error, mbind at 1, int_to_float.
  destruct (float_limit <=? _); cbn [orb]; [by intros [= <-]|].
  unfold mbind at 1, time_sleep.
  destruct (sleep_overflow _); [by intros [= <-]|].
  destruct (Qltb _ 0); [by intros [= <-] | done].
Qed.

(** Once the clock is past the soft deadline, a further round of the
    loop computes a negative sleep length, which [time.sleep] refuses:
    with the ValueError for a negative length, or with OverflowError when
    the interval or the length is out of range. *)
Lemma sleep_negative_after_soft_deadline (fuel : nat) (l : locals)
    (w : World) :
  loop_condition limit softtimeout timeout l = true ->
  (softtimeout < now l)%Q ->
  exists e,
    sleep_error interval (sleep_dur interval softtimeout timeout
                            (set_continu (Some true) l)) = Some e /\
    (e = SleepValueError \/ e = OverflowError) /\
    while_loop env watchlist interval limit retry softtimeout timeout
      (S fuel) l w = (Raise e, w).
Proof.
  intros Hc Hlate.
  assert (Qltb (sleep_dur interval softtimeout timeout
                  (set_continu (Some true) l)) 0 = true) as Hneg.
  { apply Qltb_true. unfold sleep_dur. cbn [now set_continu].
    eapply Qle_lt_trans; [apply Q.le_min_l|]. lra. }
  destruct (sleep_error interval _) as [e|] eqn:E.
  - exists e. split; [done|]. split; [|by apply while_loop_sleep_error].
    revert E. unfold sleep_error. rewrite Hneg.
    destruct (_ || _); intros [= <-]; [by right | by left].
  - revert E. unfold sleep_error. rewrite Hneg. by destruct (_ || _).
Qed.

(** Before any callback, and with a non-negative interval, the sleep
    length is the stated minimum, it is not negative, and it ends no
    later than either deadline. *)
Lemma sleep_before_first_call (l : locals) :
  loop_condition limit softtimeout timeout l = true ->
  ncalls l = 0 -> 0 <= interval ->
  let d := sleep_dur interval softtimeout timeout l in
  (0 <= d)%Q /\ (now l + d <= softtimeout)%Q /\ (now l + d <= timeout)%Q.
Proof.
  intros Hc Hn Hi d. unfold loop_condition in Hc. rewrite Hn in Hc.
  apply andb_true_iff in Hc as [Hc Hh]. apply andb_true_iff in Hc as [_ Hs].
  cbn in Hs. apply Qltb_true in Hs, Hh.
  assert (0 <= inject_Z interval / 1000)%Q as Hq.
  { apply Qle_shift_div_l; [done|]. rewrite Qmult_0_l.
    change 0%Q with (inject_Z 0). by rewrite <- Zle_Qle. }
  subst d. unfold sleep_dur. repeat split.
  - apply Q.min_glb; [lra|]. apply Q.min_glb; [lra | done].
  - pose proof (Q.le_min_l (softtimeout - now l)
                  (Qmin (timeout - now l) (inject_Z interval / 1000))).
    lra.
  - pose proof (Q.le_min_r (softtimeout - now l)
                  (Qmin (timeout - now l) (inject_Z interval / 1000))).
    pose proof (Q.le_min_l (timeout - now l) (inject_Z interval / 1000)).
    lra.
Qed.

End Sleep.

(** C4 at a run the loop can make: soft timeout of 2 seconds, no hard
    timeout, no limit, polling every second a file that keeps changing. The
    callback is invoked in the first cycle; the second cycle starts 3
    seconds after the start, computes a sleep length of -1 and ends the
    run with the ValueError of [time.sleep], after one sleep and one
    invocation. *)
Theorem sleep_after_soft_deadline_raises :
  let run := watchstat env_touch 2 [(tmp_f, [ST_MTIME])] 1000 0 false
               (Some 2%Q) None world0 in
  run.1 = Raise SleepValueError /\
  length (called run.2) = 1%nat /\
  exists d, slept run.2 = [d] /\ (d == 1)%Q.
Proof.
  split; [by vm_compute|]. split; [by vm_compute|].
  eexists. split; [by vm_compute | by vm_compute].
Qed.

(** * A run in which changes keep occurring *)

Lemma elem_of_differing (fields : list field) (last next : stat_result)
    (f : field) :
  f ∈ differing fields last next <->
  f ∈ fields /\ getitem last f <> getitem next f.
Proof.
  unfold differing.
  enough (forall acc : gset field,
            f ∈ foldl (fun diff_fields field_index =>
                         if bool_decide (getitem last field_index
                                         <> getitem next field_index)
                         then diff_fields ∪ {[field_index]}
                         else diff_fields) acc fields
            <-> f ∈ acc \/ (f ∈ fields /\ getitem last f <> getitem next f))
    as H.
  { rewrite H. split; [intros [H0|H0]; [by apply not_elem_of_empty in H0|done]
                      | by right]. }
  induction fields as [|g fields IH]; intros acc; cbn [foldl].
  - split; [by left | intros [?|[H _]]; [done | by apply elem_of_nil in H]].
  - rewrite IH. case_bool_decide as Hg.
    + rewrite elem_of_union, elem_of_singleton, elem_of_cons. split.
      * intros [[?| ->]|[? ?]]; [by left | right | right]; split; auto.
      * intros [?|[[-> |?] ?]]; [left; by left | left; by right | by right].
    + rewrite elem_of_cons. split.
      * intros [?|[? ?]]; [by left | right; split; auto].
      * intros [?|[[-> |?] ?]]; [by left | | by right].
        congruence.
Qed.

Section Tracking.
Variable env : Env.

Lemma tracked_record_stat stats w path s q :
  os_stat env path (stat_count w path) = StatOk s ->
  tracked env stats w q \/ q = path ->
  tracked env (<[path := Some s]> stats) (record_stat path w) q.
Proof.
  intros Hs Hq. destruct (decide (q = path)) as [->|Hne].
  - exists (stat_count w path), s. unfold stat_count at 1.
    cbn [record_stat stat_calls]. rewrite !lookup_insert_eq. done.
  - destruct Hq as [(k & s0 & H1 & H2 & H3)|?]; [|done].
    exists k, s0. unfold stat_count in *. cbn [record_stat stat_calls].
    rewrite !lookup_insert_ne by done. done.
Qed.

Lemma tracked_same_stats stats w w' q :
  stat_calls w' = stat_calls w ->
  tracked env stats w q -> tracked env stats w' q.
Proof.
  intros E (k & s & H1 & H2 & H3). exists k, s. unfold stat_count in *.
  by rewrite E.
Qed.

Lemma initial_stats_tracked (retry : bool)
    (wl : list (pystr * list field)) :
  (forall e, e ∈ wl -> keeps_changing env e) ->
  forall acc w, exists stats w',
    initial_stats env retry wl acc w = (Return stats, w') /\
    called w' = called w /\ time_calls w' = time_calls w /\
    (forall q, tracked env acc w q \/ q ∈ wl.*1 -> tracked env stats w' q).
Proof.
  induction wl as [|[path fields] wl IH]; intros Hch acc w.
  - exists acc, w. repeat split; try done.
    intros q [?|H]; [done | by apply elem_of_nil in H].
  - destruct (Hch (path, fields) ltac:(by apply elem_of_cons; left)
                (stat_count w path)) as (s & _ & Hs & _). cbn [fst] in Hs.
    cbn [initial_stats]. unfold mbind at 1, try_stat, os_stat_call.
    rewrite Hs.
    destruct (IH (fun e He => Hch e ltac:(by apply elem_of_cons; right))
                (<[path := Some s]> acc) (record_stat path w))
      as (stats & w' & -> & Hc & Ht & Htr).
    exists stats, w'. repeat split; try done.
    intros q Hq. apply Htr. rewrite fmap_cons in Hq. cbn [fst] in Hq.
    destruct (decide (q ∈ wl.*1)) as [?|Hnot]; [by right|]. left.
    apply tracked_record_stat; [done|].
    destruct Hq as [?|[-> |?]%elem_of_cons]; [by left | by right | done].
Qed.

End Tracking.

Lemma stop_after_entry_in_time (limit : Z) (soft hard : Q) (l : locals) :
  (now l < soft)%Q -> (now l < hard)%Q ->
  stop_after_entry limit soft hard l = (0 <? limit) && (limit <=? ncalls l).
Proof.
  intros Hs%Qgeb_false Hh%Qgeb_false. unfold stop_after_entry.
  by rewrite Hs, Hh, andb_false_r, !orb_false_r.
Qed.

Lemma sleep_dur_in_time (interval : Z) (soft hard : Q) (l : locals) :
  (now l < soft)%Q -> (now l < hard)%Q -> 0 <= interval ->
  Qltb (sleep_dur interval soft hard l) 0 = false.
Proof.
  intros Hs Hh Hi. apply Qltb_false. unfold sleep_dur.
  assert (0 <= inject_Z interval / 1000)%Q as Hq.
  { apply Qle_shift_div_l; [done|]. rewrite Qmult_0_l.
    change 0%Q with (inject_Z 0). by rewrite <- Zle_Qle. }
  apply Q.min_glb; [lra|]. apply Q.min_glb; [lra | done].
Qed.

Lemma sleep_dur_no_error (interval : Z) (soft hard : Q) (l : locals) :
  (now l < soft)%Q -> (now l < hard)%Q ->
  0 <= interval -> interval * 1000000 < 2 ^ 63 ->
  sleep_error interval (sleep_dur interval soft hard l) = None.
Proof.
  intros Hs Hh Hi Hsmall. apply sleep_in_range; [done | done | |].
  - apply Qltb_false. by apply sleep_dur_in_time.
  - unfold sleep_dur.
    eapply Qle_trans; [apply Q.le_min_r | apply Q.le_min_r].
Qed.

Section Changing.
Variables (env : Env) (watchlist : list (pystr * list field))
          (interval : Z) (retry : bool) (soft hard : Q).

(** The readings of the clock numbered [first] to [last - 1] are before
    both deadlines. *)
Variables (first last : nat).
Hypothesis in_time :
  forall k, (first <= k < last)%nat ->
    (clock env k < soft)%Q /\ (clock env k < hard)%Q.
Hypothesis goes_on : forall k c, callback env k c <> Some false.
Hypothesis changing : forall e, e ∈ watchlist -> keeps_changing env e.
Hypothesis interval_nonneg : 0 <= interval.
Hypothesis interval_small : interval * 1000000 < 2 ^ 63.

(** With limit 2, polling an entry invokes the callback and breaks
    exactly when that was the second invocation. *)
Lemma poll_entry_fires (e : pystr * list field) (l : locals) (w : World) :
  e ∈ watchlist -> good env watchlist soft hard l w ->
  (first <= time_calls w < last)%nat ->
  exists l' w',
    poll_entry env 2 retry soft hard e l w
      = (Return (if 2 <=? ncalls l + 1 then Break else Next, l'), w') /\
    good env watchlist soft hard l' w' /\ ncalls l' = ncalls l + 1 /\
    length (called w') = S (length (called w)) /\
    time_calls w' = S (time_calls w) /\
    (if 2 <=? ncalls l + 1 then continu l' = Some false
     else continu l' <> Some false).
Proof.
  intros He (Htr & Hs & Hh) Hk. destruct e as [path fields].
  destruct (Htr path) as (k & s & Hcnt & Hsk & Hlast).
  { apply list_elem_of_fmap. by exists (path, fields). }
  destruct (changing _ He k) as (s0 & s' & Hs0 & Hs' & f & Hf & Hne).
  cbn [fst snd] in *. rewrite Hsk in Hs0. injection Hs0 as <-.
  rewrite <- Hcnt in Hs'.
  rewrite (poll_entry_present _ _ _ _ _ _ _ _ _ _ _ Hlast Hs').
  cbn zeta. cbn [diff_of]. fold (effective fields).
  rewrite bool_decide_eq_true_2.
  2:{ intros Hempty.
      assert (f ∈ differing (effective fields) s s') as Hin
        by (by apply elem_of_differing).
      rewrite Hempty in Hin. by apply not_elem_of_empty in Hin. }
  set (c := Build_call _ _ _ _).
  pose proof (goes_on (length (called w)) c) as Hr.
  set (l1 := Build_locals _ _ _ _).
  assert (end_of_entry env 2 soft hard path (Some s') l1
            (record_call c (record_stat path w))
          = let l' := entry_locals env path (Some s') l1
                        (record_call c (record_stat path w)) in
            if 2 <=? ncalls l + 1
            then (Return (Break, set_continu (Some false) l'),
                  tick (record_call c (record_stat path w)))
            else (Return (Next, l'),
                  tick (record_call c (record_stat path w)))) as Hend.
  { rewrite end_of_entry_eq. cbn zeta.
    rewrite stop_after_entry_in_time by (by apply in_time). done. }
  assert (forall l', stats l' = <[path := Some s']> (stats l) ->
            now l' = clock env (time_calls w) ->
            good env watchlist soft hard l'
              (tick (record_call c (record_stat path w)))) as Hgood.
  { intros l' Hst Hn. split; [|rewrite Hn; by apply in_time].
    intros q Hq. rewrite Hst.
    apply (tracked_same_stats env _ (record_stat path w)); [done|].
    apply tracked_record_stat; [done|]. left. by apply Htr. }
  assert (match callback env (length (called w)) c with
          | Some false => (Return (Break, l1),
                           record_call c (record_stat path w))
          | _ => end_of_entry env 2 soft hard path (Some s') l1
                   (record_call c (record_stat path w))
          end = end_of_entry env 2 soft hard path (Some s') l1
                  (record_call c (record_stat path w))) as ->
    by (by destruct (callback env (length (called w)) c) as [[|]|]).
  rewrite Hend. cbn zeta. destruct (2 <=? ncalls l + 1).
  - eexists _, _. split; [done|]. split; [|done]. by apply Hgood.
  - eexists _, _. split; [done|]. split; [|done]. by apply Hgood.
Qed.

Lemma good_round (l : locals) (w : World) (d : Q) :
  good env watchlist soft hard l w -> (first <= time_calls w < last)%nat ->
  good env watchlist soft hard
       (set_now (clock env (time_calls w)) (set_continu (Some true) l))
       (tick (record_sleep d w)).
Proof.
  intros (Htr & _ & _) Hk. split; [|by apply in_time].
  intros q Hq. by apply (tracked_same_stats env _ w), Htr.
Qed.

Lemma good_next (l : locals) (w : World) :
  good env watchlist soft hard l w -> (first <= time_calls w < last)%nat ->
  good env watchlist soft hard (set_now (clock env (time_calls w)) l) (tick w).
Proof.
  intros (Htr & _ & _) Hk. split; [|by apply in_time].
  intros q Hq. by apply (tracked_same_stats env _ w), Htr.
Qed.

(** One round of the [while] loop that reaches the [for] loop. *)
Lemma while_loop_round (limit : Z) (fuel : nat) (l : locals) (w : World) :
  loop_condition limit soft hard l = true ->
  (now l < soft)%Q -> (now l < hard)%Q ->
  (first <= time_calls w < last)%nat ->
  while_loop env watchlist interval limit retry soft hard (S fuel) l w =
  let d := sleep_dur interval soft hard (set_continu (Some true) l) in
  match for_watchlist env limit retry soft hard watchlist
          (set_now (clock env (time_calls w)) (set_continu (Some true) l))
          (tick (record_sleep d w)) with
  | (Return r, w') =>
      match continu r.2 with
      | Some false => (Return r.2, w')
      | _ => while_loop env watchlist interval limit retry soft hard fuel
               (set_now (clock env (time_calls w')) r.2) (tick w')
      end
  | (Raise e, w') => (Raise e, w')
  | (Diverge, w') => (Diverge, w')
  end.
Proof.
  intros Hc Hs Hh Hk. cbn [while_loop]. rewrite Hc.
  pose proof (sleep_dur_no_error interval soft hard
                (set_continu (Some true) l) Hs Hh interval_nonneg
                interval_small) as Hok.
  revert Hok. unfold sleep_error, mbind at 1, int_to_float.
  destruct (float_limit <=? _); [done|]. cbn [orb].
  unfold mbind at 1, time_sleep.
  destruct (sleep_overflow _); [done|].
  destruct (Qltb _ 0); [done|]. intros _.
  unfold mbind at 1, time_time at 1. cbn [record_sleep time_calls].
  destruct (in_time (time_calls w) Hk) as [Hs'%Qgeb_false Hh'%Qgeb_false].
  cbn [now set_now]. rewrite Hs', Hh', andb_false_r. cbn [orb].
  unfold mbind at 1.
  destruct (for_watchlist _ _ _ _ _ _ _ _) as [[r| |] w']; [|done..].
  by destruct (continu r.2) as [[|]|].
Qed.

(** The [for] loop of the first cycle: two invocations and a break when
    the list has two entries or more, one invocation otherwise. *)
Lemma for_watchlist_first (wl : list (pystr * list field)) (l : locals)
    (w : World) :
  wl <> [] -> (forall e, e ∈ wl -> e ∈ watchlist) ->
  good env watchlist soft hard l w -> ncalls l = 0 ->
  (first <= time_calls w)%nat -> (time_calls w + 2 <= last)%nat ->
  exists ctl l' w',
    for_watchlist env 2 retry soft hard wl l w = (Return (ctl, l'), w') /\
    good env watchlist soft hard l' w' /\
    ((ncalls l' = 2 /\ continu l' = Some false /\
      length (called w') = S (S (length (called w))) /\
      time_calls w' = S (S (time_calls w))) \/
     (ncalls l' = 1 /\ continu l' <> Some false /\
      length (called w') = S (length (called w)) /\
      time_calls w' = S (time_calls w))).
Proof.
  intros Hne Hsub Hg Hn Hlo Hhi. destruct wl as [|e1 rest]; [done|].
  destruct (poll_entry_fires e1 l w)
    as (l1 & w1 & E1 & Hg1 & Hn1 & Hc1 & Ht1 & Hk1);
    [apply Hsub; by apply elem_of_cons; left | done | lia |].
  rewrite Hn in E1, Hn1, Hk1.
  change (2 <=? 0 + 1) with false in E1, Hk1. change (0 + 1) with 1 in Hn1.
  cbn [for_watchlist]. unfold mbind at 1. rewrite E1. cbn [fst snd].
  destruct rest as [|e2 rest].
  - exists Next, l1, w1. split; [done|]. split; [done|]. by right.
  - destruct (poll_entry_fires e2 l1 w1)
      as (l2 & w2 & E2 & Hg2 & Hn2 & Hc2 & Ht2 & Hk2);
      [apply Hsub; apply elem_of_cons; right; by apply elem_of_cons; left
      | done | lia |].
    rewrite Hn1 in E2, Hn2, Hk2.
    change (2 <=? 1 + 1) with true in E2, Hk2. change (1 + 1) with 2 in Hn2.
    cbn [for_watchlist]. unfold mbind at 1. rewrite E2. cbn [fst snd].
    exists Break, l2, w2. split; [done|]. split; [done|]. left.
    by rewrite Hc2, Hc1, Ht2, Ht1.
Qed.

(** The [for] loop after one invocation: the first entry brings the
    second invocation and the break. *)
Lemma for_watchlist_second (l : locals) (w : World) :
  watchlist <> [] -> good env watchlist soft hard l w -> ncalls l = 1 ->
  (first <= time_calls w < last)%nat ->
  exists l' w',
    for_watchlist env 2 retry soft hard watchlist l w
      = (Return (Break, l'), w') /\
    good env watchlist soft hard l' w' /\ ncalls l' = 2 /\
    continu l' = Some false /\
    length (called w') = S (length (called w)).
Proof.
  intros Hne Hg Hn Hk.
  assert (exists e1 rest, watchlist = e1 :: rest /\ e1 ∈ watchlist)
    as (e1 & rest & Ewl & He1).
  { destruct watchlist as [|e1 rest]; [done|].
    exists e1, rest. split; [done | by apply elem_of_cons; left]. }
  destruct (poll_entry_fires e1 l w He1 Hg Hk)
    as (l1 & w1 & E1 & Hg1 & Hn1 & Hc1 & _ & Hk1).
  rewrite Hn in E1, Hn1, Hk1.
  change (2 <=? 1 + 1) with true in E1, Hk1. change (1 + 1) with 2 in Hn1.
  assert (for_watchlist env 2 retry soft hard watchlist l w
          = for_watchlist env 2 retry soft hard (e1 :: rest) l w) as ->
    by (by rewrite <- Ewl).
  cbn [for_watchlist]. unfold mbind at 1.
  rewrite E1. cbn [fst snd]. by exists l1, w1.
Qed.

End Changing.

(** With an empty watch list the callback is never invoked, however long
    the loop runs. *)
Lemma while_loop_empty (env : Env) (interval limit : Z) (retry : bool)
    (soft hard : Q) (fuel : nat) (l : locals) (w : World) :
  called (while_loop env [] interval limit retry soft hard fuel l w).2
  = called w.
Proof.
  revert l w. induction fuel as [|fuel IH]; intros l w; cbn [while_loop].
  - by destruct (loop_condition _ _ _ _).
  - destruct (loop_condition _ _ _ _); [|done].
    unfold mbind at 1, int_to_float.
    destruct (float_limit <=? _); [done|].
    unfold mbind at 1, time_sleep.
    destruct (sleep_overflow _); [done|]. destruct (Qltb _ 0); [done|].
    unfold mbind at 1, time_time at 1.
    destruct (_ || _); [done|].
    cbn [for_watchlist]. unfold mbind at 1. cbn [ret snd continu set_now
                                                   set_continu].
    unfold mbind, time_time. by rewrite IH.
Qed.




(** * The initial run *)

(** C5 on the code: for every namespace that [parse_args] can return, the
    initial-run step with the option set raises AttributeError on
    [opts.path] and leaves the world as it was: no stat is made and the
    callback is not invoked, for any watched path. Without the option the
    step does nothing. *)
Theorem initial_run_raises (env : Env) (o : Main.options) (w : World) :
  Main.initial_run_step env (Main.namespace o) w =
  if Main.initial_run o then (Raise (AttributeError (py "path")), w)
  else (Return tt, w).
Proof.
  unfold Main.initial_run_step, mbind, Main.getattr.
  assert (Main.namespace o !! py "initial_run"
          = Some (Main.PyBool (Main.initial_run o))) as -> by (by vm_compute).
  assert (Main.namespace o !! py "path" = None) as -> by (by vm_compute).
  cbn [ret raise Main.truth]. by destruct (Main.initial_run o).
Qed.

(** * The reverse registry *)

Lemma reverse_stat_info_fold
    (info : list (field * (pystr * pystr * pystr))) :
  NoDup (names_of info) ->
  forall (acc : gmap pystr field) (n : pystr) (i : field),
    foldl (fun rinfo '(index, (opt, fld, desc)) =>
             insert fld index (insert opt index rinfo)) acc info !! n
    = Some i
    <-> (exists o f d, (i, (o, f, d)) ∈ info /\ (n = o \/ n = f)) \/
        ((n ∉ names_of info) /\ acc !! n = Some i).
Proof.
  induction info as [|[i0 [[o0 f0] d0]] rest IH]; intros Hnd acc n i.
  - cbn [foldl names_of flat_map]. split.
    + intros H. right. split; [by intros ?%elem_of_nil | done].
    + intros [(o & f & d & H & _)|[_ H]]; [by apply elem_of_nil in H | done].
  - cbn [names_of flat_map app fst snd] in Hnd. fold (names_of rest) in Hnd.
    apply NoDup_cons in Hnd as [Ho Hnd]. apply NoDup_cons in Hnd as [Hf Hnd].
    assert (o0 <> f0) as Hof by (intros ->; apply Ho; by apply elem_of_cons; left).
    assert (o0 ∉ names_of rest) as Ho'
      by (intros H; apply Ho; by apply elem_of_cons; right).
    cbn [foldl]. rewrite (IH Hnd).
    cbn [names_of flat_map app fst snd]. fold (names_of rest). split.
    + intros [(o & f & d & Hin & Hn)|[Hn Hacc]].
      * left. exists o, f, d. split; [by apply elem_of_cons; right | done].
      * destruct (decide (n = f0)) as [->|Hnf].
        { rewrite lookup_insert_eq in Hacc. injection Hacc as <-.
          left. exists o0, f0, d0. split; [by apply elem_of_cons; left | by right]. }
        rewrite lookup_insert_ne in Hacc by done.
        destruct (decide (n = o0)) as [->|Hno].
        { rewrite lookup_insert_eq in Hacc. injection Hacc as <-.
          left. exists o0, f0, d0. split; [by apply elem_of_cons; left | by left]. }
        rewrite lookup_insert_ne in Hacc by done.
        right. split; [|done]. intros [->|[->|H]%elem_of_cons]%elem_of_cons; done.
    + intros [(o & f & d & [[= -> -> -> ->]|Hin]%elem_of_cons & Hn)|[Hn Hacc]].
      * right. destruct Hn as [->| ->].
        -- split; [done|]. rewrite lookup_insert_ne by done.
           by rewrite lookup_insert_eq.
        -- split; [done|]. by rewrite lookup_insert_eq.
      * left. by exists o, f, d.
      * right. split.
        -- intros H. apply Hn. apply elem_of_cons; right. by apply elem_of_cons; right.
        -- rewrite !lookup_insert_ne; [done | |].
           ++ intros <-. apply Hn. by apply elem_of_cons; left.
           ++ intros <-. apply Hn. apply elem_of_cons; right. by apply elem_of_cons; left.
Qed.

(** X1: when the names of a table are pairwise distinct,
    [_reverse_stat_info] maps the option letter and the long name of every
    entry to the entry's index, and binds no other name. *)
Theorem reverse_stat_info_round_trip
    (info : list (field * (pystr * pystr * pystr))) :
  NoDup (names_of info) ->
  (forall i o f d, (i, (o, f, d)) ∈ info ->
     _reverse_stat_info info !! o = Some i /\
     _reverse_stat_info info !! f = Some i) /\
  (forall n i, _reverse_stat_info info !! n = Some i ->
     exists o f d, (i, (o, f, d)) ∈ info /\ (n = o \/ n = f)).
Proof.
  intros Hnd. unfold _reverse_stat_info. split.
  - intros i o f d Hin.
    split; apply (reverse_stat_info_fold info Hnd); left; exists o, f, d;
      (split; [done|]); [by left | by right].
  - intros n i [H|[_ H]]%(reverse_stat_info_fold info Hnd); [done|].
    by rewrite lookup_empty in H.
Qed.

(** The registry of the module: twenty distinct names. *)
Lemma reverse_stat_info_round_trip_witness :
  NoDup (names_of stat_info) /\
  (forall i o f d, (i, (o, f, d)) ∈ stat_info ->
     rstat_info !! o = Some i /\ rstat_info !! f = Some i) /\
  (forall n i, rstat_info !! n = Some i ->
     exists o f d, (i, (o, f, d)) ∈ stat_info /\ (n = o \/ n = f)).
Proof.
  assert (NoDup (names_of stat_info)) as Hnd
    by (apply (bool_decide_unpack (NoDup (names_of stat_info)));
        by vm_compute).
  split; [exact Hnd|]. exact (reverse_stat_info_round_trip stat_info Hnd).
Defined.

(** * First occurrences *)

Lemma startswith_drop (s sub : pystr) (i : nat) :
  startswith sub (drop i s) = true ->
  drop i s = sub ++ drop (i + length sub) s.
Proof.
  intros [t Ht]%startswith_prefix. rewrite Ht. f_equal.
  rewrite <- drop_drop, Ht. by rewrite drop_app_length.
Qed.

Lemma find0_first (s sub : pystr) (i : nat) :
  find0 s sub = Some i ->
  forall j, (j < i)%nat -> startswith sub (drop j s) = false.
Proof.
  revert i. induction s as [|c s IH]; intros i; simpl.
  - destruct (startswith sub []); [|done]. intros [= <-] j Hj. lia.
  - destruct (startswith sub (c :: s)) eqn:E; [intros [= <-] j Hj; lia|].
    destruct (find0 s sub) as [i'|] eqn:F; simpl; [|done].
    intros [= <-] [|j] Hj; [done|]. simpl. apply (IH i' eq_refl). lia.
Qed.

Lemma find_first (s sub : pystr) (start e : nat) :
  find s sub start = Some e ->
  forall j, (start <= j < e)%nat -> startswith sub (drop j s) = false.
Proof.
  unfold find. destruct (length s <? start)%nat; [done|].
  destruct (find0 (drop start s) sub) as [i|] eqn:F; simpl; [|done].
  intros [= <-] j Hj.
  replace j with (start + (j - start))%nat by lia. rewrite <- drop_drop.
  apply (find0_first _ _ _ F). lia.
Qed.

Lemma find0_no_occurrence (s sub : pystr) :
  (forall pre post, s <> pre ++ sub ++ post) -> find0 s sub = None.
Proof.
  intros Hno. destruct (find0 s sub) as [i|] eqn:F; [|done].
  apply find0_Some in F as [F _]. apply startswith_drop in F.
  destruct (Hno (take i s) (drop (i + length sub) s)).
  by rewrite <- F, take_drop.
Qed.

(** * More on the scanner *)

(** X2: a string in which the delimiter does not occur is returned
    unchanged, whatever the snapshot and the extra values; the empty string
    is the simplest case. *)
Theorem no_delimiter_identity (string delim : pystr) (status : stat_result)
    (extra_keys : gmap pystr pystr) :
  (forall pre post, string <> pre ++ delim ++ post) ->
  interpolate_argument string delim status extra_keys = Return string.
Proof.
  intros Hno. unfold interpolate_argument, find_tokens, find.
  rewrite drop_0, (find0_no_occurrence _ _ Hno).
  by destruct (length string <? 0)%nat.
Qed.

Lemma no_delimiter_identity_witness :
  (forall pre post, py "ls -l" <> pre ++ py "%" ++ post) /\
  interpolate_argument (py "ls -l") (py "%") st0 ∅ = Return (py "ls -l").
Proof.
  assert (forall pre post, py "ls -l" <> pre ++ py "%" ++ post) as Hno.
  { intros pre post H.
    assert (("%"%char : ascii) ∈ py "ls -l") as Hin.
    { rewrite H. apply elem_of_app; right. by apply elem_of_cons; left. }
    vm_compute in Hin. repeat (apply elem_of_cons in Hin as [Hin|Hin];
                               [discriminate|]).
    by apply elem_of_nil in Hin. }
  split; [exact Hno|]. exact (no_delimiter_identity _ _ st0 ∅ Hno).
Defined.

(** With an empty delimiter every offset is an occurrence, so the scanner
    stays where it is. *)
Lemma find_empty (s : pystr) (t : nat) :
  (t <= length s)%nat -> find s [] t = Some t.
Proof.
  intros Ht. unfold find.
  destruct (Nat.ltb_spec (length s) t) as [H|H]; [lia|].
  rewrite (find0_here (drop t s) []) by done. simpl. f_equal. lia.
Qed.

(** X3: with the empty delimiter the scanner never ends: whatever the fuel,
    it runs out of it without yielding a token, and interpolation does not
    return. *)
Theorem empty_delimiter_never_ends (string : pystr) (status : stat_result)
    (extra_keys : gmap pystr pystr) :
  (forall fuel,
     find_tokens_loop fuel string [] (find string [] 0) = ([], ScanFuel)) /\
  interpolate_argument string [] status extra_keys = Diverge.
Proof.
  assert (forall fuel t, (t <= length string)%nat ->
            find_tokens_loop fuel string [] (Some t) = ([], ScanFuel)) as H.
  { induction fuel as [|fuel IH]; intros t Ht; [done|].
    cbn [find_tokens_loop length]. rewrite Nat.add_0_r.
    rewrite (find_empty string t Ht), Nat.eqb_refl, Nat.add_0_r.
    rewrite (find_empty string t Ht). by apply IH. }
  rewrite (find_empty string 0) by lia. split.
  - intros fuel. apply H. lia.
  - unfold interpolate_argument, find_tokens.
    rewrite (find_empty string 0) by lia. rewrite H by lia. done.
Qed.

(** X4: with a non-empty delimiter, vector interpolation always ends: it
    returns a vector or raises ([len(string) + 1] rounds of the scanner are
    enough for each argument). *)
Theorem interpolation_ends (argv : list pystr) (delim : pystr)
    (status : stat_result) (keys : gmap pystr pystr) :
  delim <> [] ->
  interpolate_argument_vector argv delim status keys <> Diverge.
Proof.
  intros Hd. destruct argv as [|argv0 args]; [done|].
  cbn [interpolate_argument_vector].
  pose proof (interpolate_each_terminates delim status keys Hd args) as H.
  by destruct (interpolate_each args delim status keys).
Qed.

Lemma interpolation_ends_witness :
  py "%" <> [] /\
  interpolate_argument_vector [py "echo"; py "%m% %%x"] (py "%") st0 ∅
    <> Diverge.
Proof.
  split; [done|]. by apply interpolation_ends.
Defined.

(** * The tokens *)

Section Tokens.
Variables (string delim : pystr).

Lemma at_delimiter_find (start : nat) :
  at_delimiter string delim (find string delim start).
Proof. intros t Ht. by apply find_Some in Ht as (_ & _ & ?). Qed.

Lemma find_tokens_loop_delimited (fuel : nat) (off : option nat) (o : nat)
    (k : pystr) :
  at_delimiter string delim off ->
  (o, k) ∈ (find_tokens_loop fuel string delim off).1 ->
  k <> [] /\
  string = take o string ++ delim ++ k ++ delim
             ++ drop (o + length k + 2 * length delim) string /\
  (forall pre post, k <> pre ++ delim ++ post).
Proof.
  revert off. induction fuel as [|fuel IH]; intros off Hoff.
  - destruct off; simpl; intros H; by apply elem_of_nil in H.
  - destruct off as [t|]; simpl; [|intros H; by apply elem_of_nil in H].
    destruct (find string delim (t + length delim)) as [e|] eqn:F;
      [|intros H; by apply elem_of_nil in H].
    pose proof (find_first _ _ _ _ F) as Hfirst.
    apply find_Some in F as (F1 & F2 & F3).
    pose proof (at_delimiter_find (e + length delim)) as Hnext.
    destruct (Nat.eqb_spec e (t + length delim)) as [->|Hne];
      [by apply IH|].
    simpl. intros [[= -> ->]|H]%elem_of_cons; [|by eapply IH].
    set (ko := (t + length delim)%nat) in *.
    assert (length (slice string ko e) = (e - ko)%nat) as Hlen
      by (apply slice_length; lia).
    assert (drop ko string = slice string ko e ++ drop e string) as Hkey.
    { unfold slice. rewrite <- (take_drop (e - ko) (drop ko string)) at 1.
      f_equal. rewrite drop_drop. f_equal. lia. }
    split; [intros Hnil; rewrite Hnil in Hlen; simpl in Hlen; lia|].
    split.
    + rewrite <- (take_drop t string) at 1. f_equal.
      rewrite (startswith_drop _ _ _ (Hoff t eq_refl)). f_equal.
      fold ko. rewrite Hkey. f_equal.
      rewrite (startswith_drop _ _ _ F3). do 2 f_equal. lia.
    + intros pre post Hk.
      assert (startswith delim (drop (ko + length pre) string) = true) as Hocc.
      { rewrite <- drop_drop, Hkey, Hk, <- !app_assoc.
        rewrite drop_app_length. apply startswith_app. }
      assert (length pre + length delim + length post = e - ko)%nat as Hl
        by (rewrite <- Hlen, Hk, !length_app; lia).
      destruct (decide (ko + length pre < e)%nat) as [Hlt|Hge].
      * rewrite Hfirst in Hocc by lia. done.
      * assert (length delim = 0)%nat as Hd0 by lia.
        apply nil_length_inv in Hd0.
        pose proof (Hfirst ko ltac:(lia)) as Hko. by rewrite Hd0 in Hko.
Qed.

Lemma find_tokens_loop_offsets (fuel : nat) (t o : nat) (k : pystr) :
  (o, k) ∈ (find_tokens_loop fuel string delim (Some t)).1 -> (t <= o)%nat.
Proof.
  revert t. induction fuel as [|fuel IH]; intros t.
  - simpl. intros H; by apply elem_of_nil in H.
  - simpl. destruct (find string delim (t + length delim)) as [e|] eqn:F;
      [|intros H; by apply elem_of_nil in H].
    apply find_Some in F as (F1 & _ & _).
    assert ((o, k) ∈ (find_tokens_loop fuel string delim
                        (find string delim (e + length delim))).1 ->
            (t <= o)%nat) as Hrest.
    { destruct (find string delim (e + length delim)) as [t'|] eqn:F';
        [|destruct fuel; intros H; by apply elem_of_nil in H].
      apply find_Some in F' as (F1' & _ & _).
      intros H%IH. lia. }
    destruct (e =? t + length delim)%nat; [done|].
    simpl. intros [[= -> ->]|H]%elem_of_cons; [lia | by apply Hrest].
Qed.

Lemma find_tokens_loop_ordered (fuel : nat) (off : option nat) (i : nat)
    (o1 o2 : nat) (k1 k2 : pystr) :
  (find_tokens_loop fuel string delim off).1 !! i = Some (o1, k1) ->
  (find_tokens_loop fuel string delim off).1 !! S i = Some (o2, k2) ->
  (o1 + length k1 + 2 * length delim <= o2)%nat.
Proof.
  revert off i. induction fuel as [|fuel IH]; intros off i.
  - by destruct off.
  - destruct off as [t|]; simpl; [|done].
    destruct (find string delim (t + length delim)) as [e|] eqn:F; [|done].
    apply find_Some in F as (F1 & F2 & _).
    destruct (Nat.eqb_spec e (t + length delim)) as [->|Hne]; [apply IH|].
    simpl. destruct i as [|i]; [|apply IH].
    simpl. intros [= <- <-] H2.
    rewrite slice_length by lia.
    destruct (find string delim (e + length delim)) as [t'|] eqn:F';
      [|by destruct fuel].
    apply find_Some in F' as (F1' & _ & _).
    apply list_elem_of_lookup_2, find_tokens_loop_offsets in H2. lia.
Qed.

End Tokens.

(** X5: every token that [find_tokens] yields sits in the string at its
    offset as delimiter, key, delimiter; its key is not empty and contains
    no occurrence of the delimiter. *)
Theorem tokens_are_delimited (string delim : pystr) (o : nat) (k : pystr) :
  (o, k) ∈ (find_tokens string delim).1 ->
  k <> [] /\
  string = take o string ++ delim ++ k ++ delim
             ++ drop (o + length k + 2 * length delim) string /\
  (forall pre post, k <> pre ++ delim ++ post).
Proof.
  intros Hin. eapply find_tokens_loop_delimited; [|exact Hin].
  apply at_delimiter_find.
Qed.

Lemma tokens_are_delimited_witness :
  (4%nat, py "size") ∈ (find_tokens (py "a%m%%size%") (py "%")).1 /\
  py "size" <> [] /\
  py "a%m%%size%" = take 4 (py "a%m%%size%") ++ py "%" ++ py "size" ++ py "%"
                      ++ drop (4 + 4 + 2 * 1) (py "a%m%%size%") /\
  (forall pre post, py "size" <> pre ++ py "%" ++ post).
Proof.
  assert ((4%nat, py "size") ∈ (find_tokens (py "a%m%%size%") (py "%")).1)
    as Hin by (vm_compute; apply elem_of_cons; right;
               by apply elem_of_cons; left).
  split; [exact Hin|].
  exact (tokens_are_delimited (py "a%m%%size%") (py "%") 4 (py "size") Hin).
Defined.

(** X6: the tokens are yielded from left to right and do not overlap: each
    one starts at or behind the end of the one before. *)
Theorem tokens_do_not_overlap (string delim : pystr) (i o1 o2 : nat)
    (k1 k2 : pystr) :
  (find_tokens string delim).1 !! i = Some (o1, k1) ->
  (find_tokens string delim).1 !! S i = Some (o2, k2) ->
  (o1 + length k1 + 2 * length delim <= o2)%nat.
Proof. apply find_tokens_loop_ordered. Qed.

Lemma tokens_do_not_overlap_witness :
  (find_tokens (py "a%m%%size%") (py "%")).1 !! 0%nat = Some (1%nat, py "m") /\
  (find_tokens (py "a%m%%size%") (py "%")).1 !! 1%nat
    = Some (4%nat, py "size") /\
  (1 + length (py "m") + 2 * length (py "%") <= 4)%nat.
Proof.
  split; [reflexivity|]. split; [reflexivity|].
  exact (tokens_do_not_overlap (py "a%m%%size%") (py "%") 0 1 4 (py "m")
           (py "size") eq_refl eq_refl).
Defined.

(** * Substitution *)

Section Substitution.
Variables (delim : pystr) (status : stat_result)
          (extra_keys : gmap pystr pystr).
Hypothesis delim_nonempty : delim <> [].

(** The scan of a string that starts with text, an opening delimiter, a
    key and its closing delimiter. *)
Lemma find_tokens_token (pre key rest : pystr) :
  key <> [] ->
  find (pre ++ delim ++ key ++ delim ++ rest) delim 0 = Some (length pre) ->
  find (key ++ delim ++ rest) delim 0 = Some (length key) ->
  find_tokens (pre ++ delim ++ key ++ delim ++ rest) delim
  = ((length pre, key)
       :: shift_tokens (length (pre ++ delim ++ key ++ delim))
            (find_tokens rest delim).1,
     (find_tokens rest delim).2).
Proof.
  intros Hkey Hopen Hclose. unfold find_tokens at 1. rewrite Hopen.
  cbn [find_tokens_loop].
  assert (1 <= length delim)%nat as Hd
    by (destruct delim; [done | simpl; lia]).
  assert (1 <= length key)%nat as Hk by (destruct key; [done | simpl; lia]).
  assert (find (pre ++ delim ++ key ++ delim ++ rest) delim
            (length pre + length delim)
          = Some (length pre + length delim + length key)%nat) as ->.
  { rewrite (app_assoc pre delim), <- (length_app pre delim).
    rewrite <- (Nat.add_0_r (length (pre ++ delim))) at 1.
    rewrite find_app_shift, Hclose. done. }
  destruct (Nat.eqb_spec (length pre + length delim + length key)
              (length pre + length delim)) as [E|_]; [lia|].
  assert (slice (pre ++ delim ++ key ++ delim ++ rest)
            (length pre + length delim)
            (length pre + length delim + length key) = key) as ->.
  { rewrite (app_assoc pre delim), <- (length_app pre delim).
    rewrite <- (Nat.add_0_r (length (pre ++ delim))) at 1.
    rewrite slice_app_shift. unfold slice.
    by rewrite drop_0, Nat.sub_0_r, take_app_length. }
  assert (pre ++ delim ++ key ++ delim ++ rest
          = (pre ++ delim ++ key ++ delim) ++ rest) as Es
    by (by rewrite <- !app_assoc).
  assert (length pre + length delim + length key + length delim
          = length (pre ++ delim ++ key ++ delim) + 0)%nat as El
    by (rewrite !length_app; lia).
  rewrite Es, El, find_app_shift, find_tokens_loop_shift. cbn [fst snd].
  unfold find_tokens.
  rewrite (find_tokens_loop_more_fuel rest delim delim_nonempty
             (S (length rest))); [done | |].
  - apply in_range_find; [done | lia].
  - rewrite !length_app. lia.
Qed.

(** X7: a token is replaced by what its key resolves to. When the first
    delimiter occurrence of a string follows the text [pre] and the next
    one follows the non-empty [key], the result is [pre], then the
    resolution of [key], then the interpolation of the rest; an error of
    the key is raised before any error of the rest. *)
Theorem token_is_substituted (pre key rest : pystr) :
  key <> [] ->
  find (pre ++ delim ++ key ++ delim ++ rest) delim 0 = Some (length pre) ->
  find (key ++ delim ++ rest) delim 0 = Some (length key) ->
  interpolate_argument (pre ++ delim ++ key ++ delim ++ rest) delim status
    extra_keys
  = let* written := resolve_key key status extra_keys in
    let* out := interpolate_argument rest delim status extra_keys in
    Return (pre ++ written ++ out).
Proof.
  intros Hkey Hopen Hclose. unfold interpolate_argument.
  rewrite (find_tokens_token pre key rest Hkey Hopen Hclose).
  destruct (find_tokens rest delim) as [toks fin]. cbn [fst snd].
  cbn [interpolate_loop]. unfold slice at 1.
  rewrite drop_0, Nat.sub_0_r, take_app_length, app_nil_l.
  assert (match key with
          | [] => Return []
          | _ :: _ => resolve_key key status extra_keys
          end = resolve_key key status extra_keys) as ->
    by (by destruct key).
  destruct (resolve_key key status extra_keys) as [written| |];
    cbn [bind]; [|done..].
  assert (pre ++ delim ++ key ++ delim ++ rest
          = (pre ++ delim ++ key ++ delim) ++ rest) as ->
    by (by rewrite <- !app_assoc).
  assert (length pre + length key + 2 * length delim
          = length (pre ++ delim ++ key ++ delim) + 0)%nat as ->
    by (rewrite !length_app; lia).
  rewrite interpolate_loop_shift.
  rewrite <- (app_nil_r (pre ++ written)), interpolate_loop_written.
  destruct (interpolate_loop rest delim status extra_keys toks fin 0 []);
    cbn [bind]; [|done..].
  by rewrite <- app_assoc.
Qed.

End Substitution.

(** ['du %size% %path%'] becomes ['du 42 /tmp/f']. *)
Lemma token_is_substituted_witness :
  py "%" <> [] /\ py "size" <> [] /\
  find (py "du " ++ py "%" ++ py "size" ++ py "%" ++ py " %path%") (py "%") 0
    = Some (length (py "du ")) /\
  find (py "size" ++ py "%" ++ py " %path%") (py "%") 0
    = Some (length (py "size")) /\
  interpolate_argument
    (py "du " ++ py "%" ++ py "size" ++ py "%" ++ py " %path%") (py "%")
    st0 {[ py "path" := py "/tmp/f" ]}
  = Return (py "du 42 /tmp/f").
Proof.
  split; [done|]. split; [done|]. split; [reflexivity|].
  split; [reflexivity|].
  rewrite (token_is_substituted (py "%") st0 {[ py "path" := py "/tmp/f" ]}
             ltac:(done) (py "du ") (py "size") (py " %path%")
             ltac:(done) eq_refl eq_refl).
  reflexivity.
Defined.

(** * When interpolation succeeds *)

Section Success.
Variables (delim : pystr) (status : stat_result)
          (extra_keys : gmap pystr pystr).

Lemma interpolate_loop_return (string : pystr) toks fin last acc out :
  interpolate_loop string delim status extra_keys toks fin last acc
    = Return out ->
  fin = ScanDone /\
  forall o k, (o, k) ∈ toks -> k <> [] ->
    exists v, resolve_key k status extra_keys = Return v.
Proof.
  revert last acc. induction toks as [|[o k] toks IH]; intros last acc.
  - destruct fin; simpl; [|done..]. intros _. split; [done|].
    intros o k H. by apply elem_of_nil in H.
  - cbn [interpolate_loop]. destruct k as [|c k]; cbn [bind].
    + intros [-> H]%IH. split; [done|].
      intros o' k' [[= -> ->]|Hin]%elem_of_cons Hk; [done | by eapply H].
    + destruct (resolve_key (c :: k) status extra_keys) as [w| |] eqn:R;
        cbn [bind]; [|done..].
      intros [-> H]%IH. split; [done|].
      intros o' k' [[= -> ->]|Hin]%elem_of_cons Hk; [by exists w | by eapply H].
Qed.

Lemma interpolate_loop_done (string : pystr) toks last acc :
  (forall o k, (o, k) ∈ toks ->
     exists v, resolve_key k status extra_keys = Return v) ->
  exists out,
    interpolate_loop string delim status extra_keys toks ScanDone last acc
      = Return out.
Proof.
  revert last acc. induction toks as [|[o k] toks IH]; intros last acc Hk.
  - by eexists.
  - cbn [interpolate_loop].
    assert (forall o' k', (o', k') ∈ toks ->
              exists v, resolve_key k' status extra_keys = Return v) as Hk'
      by (intros o' k' H; apply (Hk o' k'); by apply elem_of_cons; right).
    destruct k as [|c k]; cbn [bind]; [by apply IH|].
    destruct (Hk o (c :: k)) as [v ->]; [by apply elem_of_cons; left|].
    cbn [bind]. by apply IH.
Qed.

Hypothesis delim_nonempty : delim <> [].

(** X8: with a non-empty delimiter, interpolating a string returns a
    result exactly when the string has an even number of delimiter
    occurrences and every key between them resolves. *)
Theorem interpolation_succeeds_iff (string : pystr) :
  (exists out,
     interpolate_argument string delim status extra_keys = Return out) <->
  Nat.even (count string delim) = true /\
  forall o k, (o, k) ∈ (find_tokens string delim).1 ->
    exists v, resolve_key k status extra_keys = Return v.
Proof.
  pose proof (find_tokens_parity string delim delim_nonempty) as Hpar.
  assert (forall o k, (o, k) ∈ (find_tokens string delim).1 -> k <> [])
    as Hkeys.
  { intros o k H.
    by destruct (find_tokens_loop_keys string delim delim_nonempty _ _ _ _ H). }
  unfold interpolate_argument.
  destruct (find_tokens string delim) as [toks fin]. cbn [fst snd] in *.
  rewrite <- Nat.negb_odd. split.
  - intros [out [-> H]%interpolate_loop_return]. split.
    + by destruct (Nat.odd (count string delim)).
    + intros o k Hin. apply (H o k Hin). by eapply Hkeys.
  - intros [Heven H]. apply negb_true_iff in Heven. rewrite Heven in Hpar.
    subst fin. by apply interpolate_loop_done.
Qed.

Lemma interpolate_each_Forall2 (args outs : list pystr) :
  interpolate_each args delim status extra_keys = Return outs <->
  Forall2 (fun arg out =>
             interpolate_argument arg delim status extra_keys = Return out)
          args outs.
Proof.
  revert outs. induction args as [|a args IH]; intros outs.
  - cbn [interpolate_each]. split.
    + intros [= <-]. constructor.
    + intros H. by inversion H.
  - cbn [interpolate_each]. split.
    + destruct (interpolate_argument a delim status extra_keys) as [v| |]
        eqn:Ea; cbn [bind]; [|done..].
      destruct (interpolate_each args delim status extra_keys) as [vs| |]
        eqn:Es; cbn [bind]; [|done..].
      intros [= <-]. constructor; [done|]. by apply IH.
    + intros H. inversion H as [|? out ? outs' Ha Hs]; subst.
      rewrite Ha. cbn [bind]. apply IH in Hs. rewrite Hs. done.
Qed.

End Success.

(** ['-n %ino%']: two occurrences, one key that resolves. *)
Lemma interpolation_succeeds_iff_witness :
  py "%" <> [] /\
  Nat.even (count (py "-n %ino%") (py "%")) = true /\
  exists out,
    interpolate_argument (py "-n %ino%") (py "%") st0 ∅ = Return out.
Proof.
  split; [done|]. split; [reflexivity|].
  apply (interpolation_succeeds_iff (py "%") st0 ∅ ltac:(done)).
  split; [reflexivity|]. intros o k Hin. vm_compute in Hin.
  apply list_elem_of_singleton in Hin as [= -> ->]. by eexists; vm_compute.
Defined.

(** X9: vector interpolation returns a vector exactly when the input has
    an element 0 and every other element interpolates; the result is
    element 0 followed by the interpolations, in order. *)
Theorem vector_is_elementwise (argv v : list pystr) (delim : pystr)
    (status : stat_result) (keys : gmap pystr pystr) :
  interpolate_argument_vector argv delim status keys = Return v <->
  exists argv0 args outs,
    argv = argv0 :: args /\ v = argv0 :: outs /\
    Forall2 (fun arg out =>
               interpolate_argument arg delim status keys = Return out)
            args outs.
Proof.
  destruct argv as [|argv0 args]; cbn [interpolate_argument_vector].
  - split; [done | by intros (? & ? & ? & ? & _)].
  - split.
    + destruct (interpolate_each args delim status keys) as [outs| |] eqn:E;
        cbn [bind]; [|done..].
      intros [= <-]. exists argv0, args, outs.
      split; [done|]. split; [done|]. by apply interpolate_each_Forall2.
    + intros (a0 & args' & outs & [= <- <-] & -> & H).
      apply interpolate_each_Forall2 in H. by rewrite H.
Qed.

(** * Stat errors and missing paths *)

Section StatErrors.
Variables (env : Env) (retry : bool).

Lemma initial_stats_app (wl1 wl2 : list (pystr * list field))
    (acc : gmap pystr (option stat_result)) (w : World) :
  initial_stats env retry (wl1 ++ wl2) acc w =
  match initial_stats env retry wl1 acc w with
  | (Return stats1, w1) => initial_stats env retry wl2 stats1 w1
  | (Raise e, w1) => (Raise e, w1)
  | (Diverge, w1) => (Diverge, w1)
  end.
Proof.
  revert acc w. induction wl1 as [|[path fields] wl1 IH]; intros acc w.
  - done.
  - cbn [app initial_stats]. unfold mbind.
    destruct (try_stat env path retry w) as [[st| |] w1]; [apply IH|done..].
Qed.

(** A stat that fails with anything but a tolerated ENOENT ends [try_stat]
    with that error. *)
Lemma try_stat_raises (path : pystr) (w : World) (errno : Z) :
  os_stat env path (stat_count w path) = StatError errno ->
  errno <> ENOENT \/ retry = false ->
  try_stat env path retry w = (Raise (OSError errno), record_stat path w).
Proof.
  intros Hs Hfatal. unfold try_stat, os_stat_call. rewrite Hs.
  destruct (Z.eqb_spec errno ENOENT) as [E|E]; cbn [negb]; [|done].
  destruct Hfatal as [?| ->]; done.
Qed.

End StatErrors.



Section Polling.
Variables (env : Env) (limit : Z) (retry : bool) (softtimeout timeout : Q).

(** X11: when the stat of a path that is polled fails with ENOENT and
    retry is on, the callback is not invoked and "no snapshot" is stored
    for the path, so that the next successful stat counts as a creation;
    without retry the poll raises the OSError. *)
Theorem missing_path_is_recorded (path : pystr) (fields : list field)
    (l : locals) (w : World) (last : option stat_result) :
  stats l !! path = Some last ->
  os_stat env path (stat_count w path) = StatError ENOENT ->
  if retry then
    exists ctl l' w',
      poll_entry env limit retry softtimeout timeout (path, fields) l w
        = (Return (ctl, l'), w') /\
      called w' = called w /\ ncalls l' = ncalls l /\
      stats l' = <[path := None]> (stats l) /\
      stat_count w' path = S (stat_count w path)
  else
    poll_entry env limit retry softtimeout timeout (path, fields) l w
      = (Raise (OSError ENOENT), record_stat path w).
Proof.
  intros Hlast Hs. unfold poll_entry, mbind, try_stat, os_stat_call.
  rewrite Hs. change (ENOENT =? ENOENT) with true. cbn [negb].
  destruct retry; cbn [negb]; [|done].
  rewrite Hlast. cbn [ret]. rewrite end_of_entry_eq. cbn zeta.
  assert (stat_count (tick (record_stat path w)) path
          = S (stat_count w path)) as Hc
    by (unfold stat_count; cbn; by rewrite lookup_insert_eq).
  destruct (stop_after_entry _ _ _ _); eexists _, _, _; by split.
Qed.

(** X12: for a path that has a stored snapshot and still exists, the
    callback is invoked exactly when a watched field differs between the
    stored and the fresh snapshot, and the diff set it receives holds
    exactly the watched fields that differ; when none differs, the fresh
    snapshot is stored without an invocation. *)
Theorem diff_is_exact (path : pystr) (fields : list field) (l : locals)
    (w : World) (last next : stat_result) :
  stats l !! path = Some (Some last) ->
  os_stat env path (stat_count w path) = StatOk next ->
  exists ctl l' w',
    poll_entry env limit retry softtimeout timeout (path, fields) l w
      = (Return (ctl, l'), w') /\
    ((forall f, f ∈ effective fields -> getitem last f = getitem next f) ->
     called w' = called w /\ ncalls l' = ncalls l /\
     stats l' = <[path := Some next]> (stats l)) /\
    ((exists f, f ∈ effective fields /\ getitem last f <> getitem next f) ->
     exists diff,
       called w' = {| call_path := path; call_diff := diff;
                      call_last := Some last; call_next := next |}
                   :: called w /\
       ncalls l' = ncalls l + 1 /\
       forall f, f ∈ diff <->
                 f ∈ effective fields /\ getitem last f <> getitem next f).
Proof.
  intros Hlast Hs.
  rewrite (poll_entry_present _ _ _ _ _ _ _ _ _ _ _ Hlast Hs).
  cbn zeta. cbn [diff_of]. fold (effective fields).
  set (diff := differing (effective fields) last next).
  case_bool_decide as Hdiff.
  - assert (exists f, f ∈ effective fields /\
                      getitem last f <> getitem next f) as Hex.
    { apply set_choose_L in Hdiff as [f Hf]. exists f.
      by apply elem_of_differing. }
    assert (~ forall f, f ∈ effective fields ->
                        getitem last f = getitem next f) as Hnot
      by (intros H; destruct Hex as (f & Hf & Hne); by apply Hne, H).
    destruct (callback env _ _) as [[|]|];
      [| eexists _, _, _; split; [done|]; split; [done|]; intros _;
         exists diff; split; [done|]; split; [done|];
         intros f; apply elem_of_differing |];
      rewrite end_of_entry_eq; cbn zeta;
      destruct (stop_after_entry _ _ _ _);
      eexists _, _, _; (split; [done|]); (split; [done|]); intros _;
      exists diff; (split; [done|]); (split; [done|]);
      intros f; apply elem_of_differing.
  - assert (forall f, f ∈ effective fields ->
                      getitem last f = getitem next f) as Hall.
    { intros f Hf. destruct (decide (getitem last f = getitem next f))
        as [?|Hne]; [done|].
      assert (f ∈ diff) as Hin by (by apply elem_of_differing).
      rewrite Hdiff in Hin. by apply not_elem_of_empty in Hin. }
    rewrite end_of_entry_eq; cbn zeta;
      destruct (stop_after_entry _ _ _ _);
      eexists _, _, _; (split; [done|]); (split; [done|]);
      intros (f & Hf & Hne); destruct Hne; by apply Hall.
Qed.

End Polling.

(** A file that has vanished, polled with retry on. *)
Lemma missing_path_is_recorded_witness :
  stats (locals1 (Some st0)) !! tmp_f = Some (Some st0) /\
  os_stat env_created tmp_f (stat_count world0 tmp_f) = StatError ENOENT /\
  exists ctl l' w',
    poll_entry env_created 0 true maxsize maxsize (tmp_f, [])
      (locals1 (Some st0)) world0 = (Return (ctl, l'), w') /\
    called w' = called world0 /\ ncalls l' = ncalls (locals1 (Some st0)) /\
    stats l' = <[tmp_f := None]> (stats (locals1 (Some st0))) /\
    stat_count w' tmp_f = S (stat_count world0 tmp_f).
Proof.
  assert (stats (locals1 (Some st0)) !! tmp_f = Some (Some st0)) as H1
    by (by vm_compute).
  assert (os_stat env_created tmp_f (stat_count world0 tmp_f)
          = StatError ENOENT) as H2 by reflexivity.
  split; [exact H1|]. split; [exact H2|].
  exact (missing_path_is_recorded env_created 0 true maxsize maxsize tmp_f []
           (locals1 (Some st0)) world0 (Some st0) H1 H2).
Defined.

(** A written file watched for its modification time and its size. *)
Lemma diff_is_exact_witness :
  stats (locals1 (Some st0)) !! tmp_f = Some (Some st0) /\
  os_stat env_touch tmp_f (stat_count world1 tmp_f)
    = StatOk (touched st0 1) /\
  exists ctl l' w',
    poll_entry env_touch 0 false maxsize maxsize (tmp_f, [ST_MTIME; ST_SIZE])
      (locals1 (Some st0)) world1 = (Return (ctl, l'), w') /\
    called w' = {| call_path := tmp_f; call_diff := {[ST_MTIME]};
                   call_last := Some st0; call_next := touched st0 1 |}
                :: called world1.
Proof.
  assert (stats (locals1 (Some st0)) !! tmp_f = Some (Some st0)) as H1
    by (by vm_compute).
  assert (os_stat env_touch tmp_f (stat_count world1 tmp_f)
          = StatOk (touched st0 1)) as H2 by (by vm_compute).
  split; [exact H1|]. split; [exact H2|].
  destruct (diff_is_exact env_touch 0 false maxsize maxsize tmp_f
              [ST_MTIME; ST_SIZE] (locals1 (Some st0)) world1 st0
              (touched st0 1) H1 H2) as (ctl & l' & w' & E & _ & Hdiff).
  exists ctl, l', w'. split; [exact E|].
  destruct Hdiff as (diff & -> & _ & Hd).
  { exists ST_MTIME. split; [by apply elem_of_cons; left | by vm_compute]. }
  do 2 f_equal. apply set_eq. intros f. rewrite Hd, elem_of_singleton.
  split.
  - intros [[->|[->|H]%elem_of_cons]%elem_of_cons Hne]; [done | |].
    + by destruct Hne.
    + by apply elem_of_nil in H.
  - intros ->. split; [by apply elem_of_cons; left | by vm_compute].
Defined.

(** * What a run can end with *)

Section Exits.
Variables (env : Env) (watchlist : list (pystr * list field))
          (interval limit : Z) (retry : bool) (softtimeout timeout : Q).

Lemma stop_after_entry_true (l : locals) :
  stop_after_entry limit softtimeout timeout l = true ->
  0 <= ncalls l -> ended softtimeout timeout l.
Proof.
  unfold stop_after_entry, ended. intros H Hn.
  apply orb_true_iff in H as [H|H%Qgeb_true]; [|by right; left].
  apply orb_true_iff in H as [H|H].
  - apply andb_true_iff in H as [H1%Z.ltb_lt H2%Z.leb_le].
    right; right. lia.
  - apply andb_true_iff in H as [H1%Z.eqb_eq H2%Qgeb_true]. by left.
Qed.

Lemma loop_condition_false (l : locals) :
  loop_condition limit softtimeout timeout l = false ->
  0 <= ncalls l -> ended softtimeout timeout l.
Proof.
  unfold loop_condition, ended. intros H Hn.
  apply andb_false_iff in H as [H|H%Qltb_false]; [|by right; left].
  apply andb_false_iff in H as [H|H].
  - apply orb_false_iff in H as [H1%Z.leb_gt H2%Z.ltb_ge]. right; right. lia.
  - apply orb_false_iff in H as [H1%Z.ltb_ge H2%Qltb_false].
    left. split; [lia | done].
Qed.

Lemma poll_entry_ended (entry : pystr * list field) (l l' : locals)
    (w w' : World) (ctl : control) :
  poll_entry env limit retry softtimeout timeout entry l w
    = (Return (ctl, l'), w') ->
  0 <= ncalls l -> continu l <> Some false ->
  0 <= ncalls l' /\
  match ctl with
  | Next => continu l' <> Some false
  | Break => continu l' = Some false /\ ended softtimeout timeout l'
  end.
Proof.
  destruct entry as [path fields]. intros E Hn Hc.
  assert (forall next_status l0 r w0,
            end_of_entry env limit softtimeout timeout path next_status l0 w0
              = (Return r, w') ->
            0 <= ncalls l0 -> continu l0 <> Some false ->
            0 <= ncalls r.2 /\
            match r.1 with
            | Next => continu r.2 <> Some false
            | Break => continu r.2 = Some false /\
                       ended softtimeout timeout r.2
            end) as Hend.
  { intros ns l0 r w0. rewrite end_of_entry_eq. cbn zeta.
    destruct (stop_after_entry _ _ _ _) eqn:S; intros [= <- _] Hn0 Hc0;
      cbn [fst snd]; [|done].
    split; [done|]. split; [done|].
    apply stop_after_entry_true in S; [|done]. exact S. }
  revert E. unfold poll_entry, mbind, try_stat, os_stat_call.
  destruct (os_stat env path (stat_count w path)) as [next|errno];
    cbn [negb].
  - destruct (stats l !! path) as [last_status|]; cbn [ret raise]; [|done].
    case_bool_decide as Hdiff.
    + cbn [call_callback].
      destruct (callback env _ _) as [[|]|] eqn:R.
      * intros Hp. apply (Hend _ _ (ctl, l')) in Hp; cbn; [done | lia | done].
      * cbn [ret]. intros [= <- <- <-]. cbn. split; [lia|].
        split; [done|]. unfold ended. cbn. right; right. lia.
      * intros Hp. apply (Hend _ _ (ctl, l')) in Hp; cbn; [done | lia | done].
    + intros Hp. by apply (Hend _ _ (ctl, l')) in Hp.
  - destruct (negb (errno =? ENOENT)); [done|].
    destruct (negb retry); [done|].
    destruct (stats l !! path) as [last_status|]; cbn [ret raise]; [|done].
    intros Hp. by apply (Hend _ _ (ctl, l')) in Hp.
Qed.

Lemma for_watchlist_ended (wl : list (pystr * list field)) (l l' : locals)
    (w w' : World) (ctl : control) :
  for_watchlist env limit retry softtimeout timeout wl l w
    = (Return (ctl, l'), w') ->
  0 <= ncalls l -> continu l <> Some false ->
  0 <= ncalls l' /\
  (continu l' = Some false -> ended softtimeout timeout l').
Proof.
  revert l w. induction wl as [|entry wl IH]; intros l w.
  - cbn [for_watchlist ret]. by intros [= <- <- <-] Hn Hc.
  - cbn [for_watchlist]. unfold mbind at 1.
    destruct (poll_entry _ _ _ _ _ _ _ _) as [[[c1 l1]| |] w1] eqn:E;
      [|done..].
    intros Hrest Hn Hc.
    destruct (poll_entry_ended _ _ _ _ _ _ E Hn Hc) as [Hn1 H1].
    cbn [fst snd] in Hrest. destruct c1.
    + by apply (IH l1 w1).
    + cbn [ret] in Hrest. injection Hrest as <- <- <-.
      split; [done|]. intros _. apply H1.
Qed.

Lemma while_loop_ended (fuel : nat) (l l' : locals) (w w' : World) :
  while_loop env watchlist interval limit retry softtimeout timeout fuel l w
    = (Return l', w') ->
  0 <= ncalls l ->
  0 <= ncalls l' /\ ended softtimeout timeout l'.
Proof.
  revert l w. induction fuel as [|fuel IH]; intros l w.
  - cbn [while_loop]. destruct (loop_condition _ _ _ _) eqn:Hc; [done|].
    cbn [ret]. intros [= <- <-] Hn. split; [done|].
    by apply loop_condition_false.
  - cbn [while_loop]. destruct (loop_condition _ _ _ _) eqn:Hcond.
    2:{ cbn [ret]. intros [= <- <-] Hn. split; [done|].
        by apply loop_condition_false. }
    pass_sleep.
    unfold mbind at 1, time_time at 1.
    destruct (_ || _) eqn:Hbreak.
    { cbn [ret]. intros [= <- <-] Hn. split; [done|].
      unfold ended. cbn [ncalls now set_now set_continu] in *.
      apply orb_true_iff in Hbreak as [H|H%Qgeb_true]; [|by right; left].
      apply andb_true_iff in H as [H1%Z.eqb_eq H2%Qgeb_true]. by left. }
    unfold mbind at 1.
    destruct (for_watchlist _ _ _ _ _ _ _ _) as [[[c1 l1]| |] w1] eqn:E;
      [|done..].
    intros Hrest Hn.
    apply for_watchlist_ended in E as [Hn1 H1]; [|done|done].
    cbn [snd] in Hrest.
    destruct (continu l1) as [[|]|].
    + unfold mbind, time_time in Hrest. by eapply IH.
    + cbn [ret] in Hrest. injection Hrest as <- <-. by split; [|apply H1].
    + unfold mbind, time_time in Hrest. by eapply IH.
Qed.

End Exits.

Lemma watchstat_return (env : Env) (fuel : nat)
    (watchlist : list (pystr * list field)) (interval limit : Z)
    (retry : bool) (softtimeout timeout : option Q) (w w' : World) (n : Z) :
  watchstat env fuel watchlist interval limit retry softtimeout timeout w
    = (Return n, w') ->
  Z.of_nat (length (called w')) = Z.of_nat (length (called w)) + n /\
  1 <= n /\ (0 < limit -> n <= limit).
Proof.
  unfold watchstat. unfold mbind at 1.
  destruct (watchstat_loop _ _ _ _ _ _ _ _ _) as [[[[soft hard] l]| |] w1]
    eqn:E; [|done..].
  intros [= Hout <-].
  destruct (calls_never_exceed_limit _ _ _ _ _ _ _ _ _ _ _ _ _ E)
    as [Hcount Hlimit].
  assert (0 <= ncalls l /\ ended soft hard l) as [Hn Hend].
  { revert E. unfold watchstat_loop, mbind, time_time.
    destruct (initial_stats _ _ _ _ _) as [[stats0| |] w0]; [|done..].
    destruct (while_loop _ _ _ _ _ _ _ _ _ _) as [[l1| |] w2] eqn:E1;
      [|done..].
    cbn [ret]. intros [= <- <- <- <-].
    by apply while_loop_ended in E1. }
  revert Hout. unfold outcome.
  destruct (Z.eqb_spec (ncalls l) 0) as [E0|E0]; cbn [andb].
  - destruct (Qgeb (now l) soft) eqn:Gs; [done|].
    destruct (Qgeb (now l) hard) eqn:Gh; [done|].
    apply Qgeb_false in Gs, Gh.
    destruct Hend as [[_ H]|[H|H]];
      [by apply Qle_not_lt in H | by apply Qle_not_lt in H | lia].
  - destruct (Qgeb (now l) hard); [done|]. intros [= <-].
    split; [done|]. split; [lia | done].
Qed.

(** X13: when [watchstat] returns, the value it returns is the number of
    invocations the callback received during the call; it is at least 1 (a
    run without an invocation can only end in SoftTimeout or Timeout) and
    at most the limit when the limit is positive. *)
Theorem return_value_counts_invocations (env : Env) (fuel : nat)
    (watchlist : list (pystr * list field)) (interval limit : Z)
    (retry : bool) (softtimeout timeout : option Q) (w w' : World) (n : Z) :
  watchstat env fuel watchlist interval limit retry softtimeout timeout w
    = (Return n, w') ->
  Z.of_nat (length (called w')) = Z.of_nat (length (called w)) + n /\
  1 <= n /\ (0 < limit -> n <= limit).
Proof.
  apply watchstat_return.
Qed.

(** The run of C9's witness: two invocations under limit 2. *)
Lemma return_value_counts_invocations_witness :
  exists n w',
    watchstat env_touch 2 [(tmp_f, [ST_MTIME])] 1000 2 false None None world0
      = (Return n, w') /\
    Z.of_nat (length (called w')) = Z.of_nat (length (called world0)) + n /\
    1 <= n /\ (0 < 2 -> n <= 2).
Proof.
  destruct (watchstat env_touch 2 [(tmp_f, [ST_MTIME])] 1000 2 false None
              None world0) as [[n| |] w'] eqn:E; [|by vm_compute in E..].
  exists n, w'. split; [reflexivity|].
  exact (return_value_counts_invocations env_touch 2 [(tmp_f, [ST_MTIME])]
           1000 2 false None None world0 w' n E).
Defined.

(** * The length of the sleep *)

Lemma interval_seconds_sign (interval : Z) :
  ((inject_Z interval / 1000 < 0)%Q <-> interval < 0) /\
  ((0 <= inject_Z interval / 1000)%Q <-> 0 <= interval).
Proof.
  assert (inject_Z interval / 1000 == inject_Z interval * (1 # 1000))%Q as E
    by reflexivity.
  rewrite E. unfold Qlt, Qle. cbn. split; split; lia.
Qed.

(** X14: in a cycle that starts with the clock not past the soft deadline
    and with a non-negative interval, the sleep length is not negative, is
    at most the interval, and ends no later than either deadline. *)
Theorem sleep_is_clamped (interval limit : Z) (softtimeout timeout : Q)
    (l : locals) :
  loop_condition limit softtimeout timeout l = true ->
  (now l <= softtimeout)%Q -> 0 <= interval ->
  let d := sleep_dur interval softtimeout timeout l in
  (0 <= d)%Q /\ (d <= inject_Z interval / 1000)%Q /\
  (now l + d <= softtimeout)%Q /\ (now l + d <= timeout)%Q.
Proof.
  intros Hc Hs Hi d. unfold loop_condition in Hc.
  apply andb_true_iff in Hc as [_ Hh%Qltb_true].
  apply (interval_seconds_sign interval) in Hi.
  subst d. unfold sleep_dur.
  pose proof (Q.le_min_l (softtimeout - now l)
                (Qmin (timeout - now l) (inject_Z interval / 1000))).
  pose proof (Q.le_min_r (softtimeout - now l)
                (Qmin (timeout - now l) (inject_Z interval / 1000))).
  pose proof (Q.le_min_l (timeout - now l) (inject_Z interval / 1000)).
  pose proof (Q.le_min_r (timeout - now l) (inject_Z interval / 1000)).
  repeat split; [|lra..].
  apply Q.min_glb; [lra|]. apply Q.min_glb; [lra | done].
Qed.

(** One second into a run with deadlines at 2 and 10 seconds and an
    interval of 1500 ms: the sleep is one second. *)
Lemma sleep_is_clamped_witness :
  let l := {| now := 1; ncalls := 3; stats := ∅; continu := Some true |} in
  loop_condition 0 2 10 l = true /\ (now l <= 2)%Q /\ 0 <= 1500 /\
  (0 <= sleep_dur 1500 2 10 l)%Q /\
  (sleep_dur 1500 2 10 l <= inject_Z 1500 / 1000)%Q /\
  (now l + sleep_dur 1500 2 10 l <= 2)%Q /\
  (now l + sleep_dur 1500 2 10 l <= 10)%Q.
Proof.
  intros l.
  assert (loop_condition 0 2 10 l = true) as H1 by reflexivity.
  assert (now l <= 2)%Q as H2 by (by vm_compute).
  assert (0 <= 1500) as H3 by lia.
  split; [exact H1|]. split; [exact H2|]. split; [exact H3|].
  exact (sleep_is_clamped 1500 0 2 10 l H1 H2 H3).
Defined.

Lemma sleep_ns_negative (secs : Q) : (secs < 0)%Q -> sleep_ns secs < 0.
Proof.
  destruct secs as [n d]. unfold Qlt, sleep_ns. cbn. intros Hn.
  destruct (Z.leb_spec 0 (n * 1000000000)) as [?|_]; [lia|].
  apply Z.div_lt_upper_bound; lia.
Qed.

(** X15: in a cycle the loop enters, the sleep length is negative exactly
    when the clock is past the soft deadline or the interval is negative;
    the cycle then ends the loop before any stat or invocation: with
    OverflowError when the interval does not convert to a float or the
    length is below [-2^63] nanoseconds, and with the ValueError of
    [time.sleep] otherwise. *)
Theorem sleep_is_negative_iff (interval limit : Z) (softtimeout timeout : Q)
    (l : locals) :
  loop_condition limit softtimeout timeout l = true ->
  let d := sleep_dur interval softtimeout timeout l in
  ((d < 0)%Q <-> (softtimeout < now l)%Q \/ interval < 0) /\
  ((d < 0)%Q ->
   let e := if (float_limit <=? Z.abs interval) || (sleep_ns d <? - 2 ^ 63)
            then OverflowError else SleepValueError in
   forall env watchlist retry fuel w,
     while_loop env watchlist interval limit retry softtimeout timeout
       (S fuel) l w = (Raise e, w)).
Proof.
  intros Hc d. split.
  - unfold loop_condition in Hc.
    apply andb_true_iff in Hc as [_ Hh%Qltb_true].
    subst d. unfold sleep_dur. rewrite !Q.min_lt_iff.
    rewrite <- (proj1 (interval_seconds_sign interval)). split.
    + intros [H|[H|H]]; [left; lra | lra | by right].
    + intros [H|H]; [left; lra | right; by right].
  - intros Hneg e env watchlist retry fuel w.
    apply while_loop_sleep_error; [done|].
    change (sleep_dur interval softtimeout timeout
              (set_continu (Some true) l)) with d.
    pose proof (sleep_ns_negative d Hneg) as Hns.
    unfold sleep_error, sleep_overflow.
    rewrite (proj2 (Z.leb_gt (2 ^ 63) (sleep_ns d))) by lia.
    rewrite orb_false_r, (proj2 (Qltb_true _ _) Hneg).
    subst e. by destruct (_ || _).
Qed.

(** An interval of -5 ms: the first cycle raises the ValueError; an
    interval of -10^13 ms: it raises OverflowError. *)
Lemma sleep_is_negative_iff_witness :
  let l := {| now := 0; ncalls := 0; stats := ∅; continu := None |} in
  loop_condition 1 maxsize maxsize l = true /\
  (sleep_dur (-5) maxsize maxsize l < 0)%Q /\
  while_loop env_idle [(tmp_f, [ST_MTIME])] (-5) 1 false maxsize maxsize 1 l
    world0 = (Raise SleepValueError, world0) /\
  (sleep_dur (- 10 ^ 13) maxsize maxsize l < 0)%Q /\
  while_loop env_idle [(tmp_f, [ST_MTIME])] (- 10 ^ 13) 1 false maxsize
    maxsize 1 l world0 = (Raise OverflowError, world0).
Proof.
  intros l.
  assert (loop_condition 1 maxsize maxsize l = true) as H1 by reflexivity.
  destruct (sleep_is_negative_iff (-5) 1 maxsize maxsize l H1) as [Hiff Hloop].
  destruct (sleep_is_negative_iff (- 10 ^ 13) 1 maxsize maxsize l H1)
    as [Hiff' Hloop'].
  assert (sleep_dur (-5) maxsize maxsize l < 0)%Q as Hneg
    by (apply Hiff; right; lia).
  assert (sleep_dur (- 10 ^ 13) maxsize maxsize l < 0)%Q as Hneg'
    by (apply Hiff'; right; lia).
  split; [exact H1|]. split; [exact Hneg|]. split.
  - exact (Hloop Hneg env_idle [(tmp_f, [ST_MTIME])] false 0%nat world0).
  - split; [exact Hneg'|].
    exact (Hloop' Hneg' env_idle [(tmp_f, [ST_MTIME])] false 0%nat world0).
Defined.

(** * The exceptions of a run *)

Section Exceptions.
Variables (env : Env) (watchlist : list (pystr * list field))
          (interval limit : Z) (retry : bool) (softtimeout timeout : Q).

Lemma try_stat_exn (path : pystr) (w w' : World) (e : exn) :
  try_stat env path retry w = (Raise e, w') -> no_key_error e.
Proof.
  unfold try_stat, os_stat_call.
  destruct (os_stat env path (stat_count w path)) as [st|errno]; [done|].
  destruct (negb (errno =? ENOENT)); [by intros [= <- _] key|].
  destruct (negb retry); [by intros [= <- _] key | done].
Qed.

Lemma initial_stats_covers (wl : list (pystr * list field))
    (acc : gmap pystr (option stat_result)) (w : World) :
  match initial_stats env retry wl acc w with
  | (Return stats0, _) =>
      covers stats0 wl /\
      forall path, is_Some (acc !! path) -> is_Some (stats0 !! path)
  | (Raise e, _) => no_key_error e
  | (Diverge, _) => False
  end.
Proof.
  revert acc w. induction wl as [|[path fields] wl IH]; intros acc w.
  - cbn [initial_stats ret]. split; [|done].
    intros p H. by apply elem_of_nil in H.
  - cbn [initial_stats]. unfold mbind.
    destruct (try_stat env path retry w) as [[st|e|] w1] eqn:E.
    + specialize (IH (<[path := st]> acc) w1).
      destruct (initial_stats env retry wl (<[path := st]> acc) w1)
        as [[stats0| |] w2]; [|done..].
      destruct IH as [Hcov Hacc]. split.
      * intros p [->|Hp]%elem_of_cons; [|by apply Hcov].
        apply Hacc. by rewrite lookup_insert_eq.
      * intros p Hp. apply Hacc.
        destruct (decide (path = p)) as [->|Hne];
          [by rewrite lookup_insert_eq | by rewrite lookup_insert_ne].
    + by eapply try_stat_exn.
    + revert E. unfold try_stat, os_stat_call.
      destruct (os_stat env path _) as [?|errno]; [done|].
      destruct (negb (errno =? ENOENT)); [done|]. by destruct (negb retry).
Qed.

Lemma poll_entry_exn (path : pystr) (fields : list field) (l : locals)
    (w : World) :
  is_Some (stats l !! path) ->
  match poll_entry env limit retry softtimeout timeout (path, fields) l w with
  | (Return r, _) =>
      forall q, is_Some (stats l !! q) -> is_Some (stats r.2 !! q)
  | (Raise e, _) => no_key_error e
  | (Diverge, _) => False
  end.
Proof.
  intros [last Hlast].
  assert (forall ns l0 w0,
            stats l0 = stats l ->
            match end_of_entry env limit softtimeout timeout path ns l0 w0
            with
            | (Return r, _) =>
                forall q, is_Some (stats l !! q) -> is_Some (stats r.2 !! q)
            | (Raise e, _) => no_key_error e
            | (Diverge, _) => False
            end) as Hend.
  { intros ns l0 w0 Hl0. rewrite end_of_entry_eq. cbn zeta.
    destruct (stop_after_entry _ _ _ _); cbn [fst snd entry_locals stats
                                                set_continu];
      rewrite Hl0; intros q Hq;
      (destruct (decide (path = q)) as [->|Hne];
        [by rewrite lookup_insert_eq | by rewrite lookup_insert_ne]). }
  unfold poll_entry, mbind.
  destruct (try_stat env path retry w) as [[next_status|e|] w1] eqn:E.
  - rewrite Hlast. cbn [ret]. destruct next_status as [next|];
      [|by apply Hend].
    case_bool_decide as Hdiff; [|by apply Hend].
    cbn [call_callback].
    destruct (callback env _ _) as [[|]|]; [by apply Hend | | by apply Hend].
    cbn [ret fst snd]. done.
  - by eapply try_stat_exn.
  - revert E. unfold try_stat, os_stat_call.
    destruct (os_stat env path _) as [?|errno]; [done|].
    destruct (negb (errno =? ENOENT)); [done|]. by destruct (negb retry).
Qed.

Lemma for_watchlist_exn (wl : list (pystr * list field)) (l : locals)
    (w : World) :
  covers (stats l) wl ->
  match for_watchlist env limit retry softtimeout timeout wl l w with
  | (Return r, _) =>
      forall q, is_Some (stats l !! q) -> is_Some (stats r.2 !! q)
  | (Raise e, _) => no_key_error e
  | (Diverge, _) => False
  end.
Proof.
  revert l w. induction wl as [|[path fields] wl IH]; intros l w Hcov.
  - cbn [for_watchlist ret]. done.
  - cbn [for_watchlist]. unfold mbind.
    pose proof (poll_entry_exn path fields l w) as Hp.
    destruct (poll_entry _ _ _ _ _ _ _ _) as [[[c1 l1]| |] w1];
      [|by apply Hp, Hcov, elem_of_cons; left..].
    cbn [fst snd] in *.
    assert (forall q, is_Some (stats l !! q) -> is_Some (stats l1 !! q))
      as Hkeep by (apply Hp, Hcov; by apply elem_of_cons; left).
    destruct c1; [|by cbn [ret]].
    specialize (IH l1 w1).
    destruct (for_watchlist _ _ _ _ _ wl l1 w1) as [[r| |] w2].
    + intros q Hq. apply IH; [|by apply Hkeep].
      intros p Hp'. apply Hkeep, Hcov. rewrite fmap_cons.
      by apply elem_of_cons; right.
    + apply IH. intros p Hp'. apply Hkeep, Hcov. rewrite fmap_cons.
      by apply elem_of_cons; right.
    + apply IH. intros p Hp'. apply Hkeep, Hcov. rewrite fmap_cons.
      by apply elem_of_cons; right.
Qed.

Lemma while_loop_exn (fuel : nat) (l : locals) (w w' : World) (e : exn) :
  covers (stats l) watchlist ->
  while_loop env watchlist interval limit retry softtimeout timeout fuel l w
    = (Raise e, w') ->
  no_key_error e.
Proof.
  revert l w. induction fuel as [|fuel IH]; intros l w Hcov.
  - cbn [while_loop]. by destruct (loop_condition _ _ _ _).
  - cbn [while_loop]. destruct (loop_condition _ _ _ _); [|done].
    unfold mbind at 1, int_to_float.
    destruct (float_limit <=? _); [by intros [= <- _] key|].
    unfold mbind at 1, time_sleep.
    destruct (sleep_overflow _); [by intros [= <- _] key|].
    destruct (Qltb _ 0); [by intros [= <- _] key|].
    unfold mbind at 1, time_time at 1.
    destruct (_ || _); [done|].
    unfold mbind at 1.
    pose proof (for_watchlist_exn watchlist
                  (set_now (clock env (time_calls (record_sleep
                     (sleep_dur interval softtimeout timeout
                        (set_continu (Some true) l)) w)))
                     (set_continu (Some true) l))
                  (tick (record_sleep
                     (sleep_dur interval softtimeout timeout
                        (set_continu (Some true) l)) w)) Hcov) as Hfor.
    destruct (for_watchlist _ _ _ _ _ _ _ _) as [[r|e1|] w1];
      [|by intros [= <- _] | done].
    cbn [stats set_now set_continu] in Hfor.
    assert (covers (stats r.2) watchlist) as Hcov'
      by (intros p Hp; by apply Hfor, Hcov).
    destruct (continu r.2) as [[|]|]; [|done|];
      unfold mbind, time_time; by apply IH.
Qed.

End Exceptions.

(** X16: the subscript [stats[path]] of line 214 never fails. The
    snapshots made before the loop cover every path of the watch list and
    the loop never removes one, so whatever ends a run of [watchstat]
    with a callback that returns, it is not a KeyError. *)
Theorem lookup_never_fails (env : Env) (fuel : nat)
    (watchlist : list (pystr * list field)) (interval limit : Z)
    (retry : bool) (softtimeout timeout : option Q) (w w' : World)
    (e : exn) :
  watchstat env fuel watchlist interval limit retry softtimeout timeout w
    = (Raise e, w') ->
  forall key, e <> KeyError key.
Proof.
  unfold watchstat, watchstat_loop, mbind, time_time.
  pose proof (initial_stats_covers env retry watchlist ∅ (tick w)) as Hinit.
  destruct (initial_stats _ _ _ _ _) as [[stats0|e0|] w0];
    [|by intros [= <- _] | done].
  destruct Hinit as [Hcov _].
  destruct (while_loop _ _ _ _ _ _ _ _ _ _) as [[l1|e1|] w1] eqn:E1.
  - cbn [ret]. unfold outcome.
    destruct (_ && _); [by intros [= <- _] key|].
    destruct (Qgeb _ _); [by intros [= <- _] key | done].
  - intros [= <- _]. by apply while_loop_exn in E1.
  - done.
Qed.

(** C4's run, with two entries for the same path in the watch list: it
    ends in the ValueError of [time.sleep]. *)
Lemma lookup_never_fails_witness :
  exists e w',
    watchstat env_touch 2 [(tmp_f, [ST_MTIME]); (tmp_f, [ST_SIZE])] 1000 0
      false (Some 2%Q) None world0 = (Raise e, w') /\
    forall key, e <> KeyError key.
Proof.
  destruct (watchstat env_touch 2 [(tmp_f, [ST_MTIME]); (tmp_f, [ST_SIZE])]
              1000 0 false (Some 2%Q) None world0) as [[n|e|] w'] eqn:E;
    [by vm_compute in E | | by vm_compute in E].
  exists e, w'. split; [reflexivity|].
  exact (lookup_never_fails env_touch 2
           [(tmp_f, [ST_MTIME]); (tmp_f, [ST_SIZE])] 1000 0 false (Some 2%Q)
           None world0 w' e E).
Defined.

(** * The watch options of the command line *)

Section Dict.
Context {V : Type}.
Implicit Types (d : list (pystr * V)) (k q : pystr) (v : V).

Lemma dict_get_set_eq d k v : Cli.dict_get (Cli.dict_set d k v) k = Some v.
Proof.
  induction d as [|[k' v'] d IH]; cbn.
  - by rewrite decide_True.
  - destruct (decide (k' = k)) as [->|Hne]; cbn.
    + by rewrite decide_True.
    + by rewrite decide_False.
Qed.

Lemma dict_get_set_ne d k q v :
  k <> q -> Cli.dict_get (Cli.dict_set d k v) q = Cli.dict_get d q.
Proof.
  intros Hne. induction d as [|[k' v'] d IH]; cbn.
  - by rewrite decide_False.
  - destruct (decide (k' = k)) as [->|Hne']; cbn.
    + by rewrite !decide_False.
    + by rewrite IH.
Qed.

Lemma dict_get_None d k : Cli.dict_get d k = None <-> k ∉ d.*1.
Proof.
  induction d as [|[k' v'] d IH]; cbn.
  - split; [intros _ H; by apply elem_of_nil in H | done].
  - rewrite not_elem_of_cons. destruct (decide (k' = k)) as [->|Hne].
    + split; [done | by intros [? _]].
    + rewrite IH. split; [by intros ? | by intros [_ ?]].
Qed.

Lemma dict_set_keys d k v :
  (Cli.dict_set d k v).*1 =
  match Cli.dict_get d k with Some _ => d.*1 | None => d.*1 ++ [k] end.
Proof.
  induction d as [|[k' v'] d IH]; cbn; [done|].
  destruct (decide (k' = k)) as [->|Hne]; cbn; [done|].
  rewrite IH. by destruct (Cli.dict_get d k).
Qed.

Lemma dict_get_elem_of d k v :
  NoDup d.*1 -> (k, v) ∈ d -> Cli.dict_get d k = Some v.
Proof.
  induction d as [|[k' v'] d IH]; cbn.
  - intros _ H. by apply elem_of_nil in H.
  - intros [Hk Hd]%NoDup_cons [[= -> ->]|Hin]%elem_of_cons.
    + by rewrite decide_True.
    + rewrite decide_False; [by apply IH|].
      intros ->. apply Hk. apply list_elem_of_fmap. by exists (k, v).
Qed.

End Dict.

Section WatchOptions.
Variable realpath : pystr -> pystr.

Lemma WatchAction_call_known wd path opt i :
  rstat_info !! Cli.lstrip_dash opt = Some i ->
  exists wd',
    Cli.WatchAction_call realpath wd path opt = inr wd' /\
    Cli.dict_get wd' (realpath path) =
      Some (default [] (Cli.dict_get wd (realpath path)) ++ [i]) /\
    (forall q, realpath path <> q -> Cli.dict_get wd' q = Cli.dict_get wd q) /\
    wd'.*1 = match Cli.dict_get wd (realpath path) with
             | Some _ => wd.*1
             | None => wd.*1 ++ [realpath path]
             end.
Proof.
  intros Hi. unfold Cli.WatchAction_call. cbv zeta. rewrite Hi.
  destruct (Cli.dict_get wd (realpath path)) as [fs|] eqn:E.
  - rewrite E. eexists. split; [done|].
    rewrite dict_get_set_eq, dict_set_keys, E.
    split; [done|]. split; [|done].
    intros q Hq. by rewrite dict_get_set_ne.
  - rewrite dict_get_set_eq. eexists. split; [done|].
    rewrite dict_get_set_eq, !dict_set_keys, dict_get_set_eq, E.
    split; [done|]. split; [|done].
    intros q Hq. by rewrite !dict_get_set_ne.
Qed.

Lemma WatchAction_call_inv wd wd' path opt :
  Cli.WatchAction_call realpath wd path opt = inr wd' ->
  exists i, rstat_info !! Cli.lstrip_dash opt = Some i.
Proof.
  unfold Cli.WatchAction_call. cbv zeta.
  destruct (rstat_info !! Cli.lstrip_dash opt) as [i|]; [by eexists | done].
Qed.

Lemma WatchAction_call_unknown wd path opt :
  rstat_info !! Cli.lstrip_dash opt = None ->
  Cli.WatchAction_call realpath wd path opt = inl Cli.RuntimeError.
Proof. intros H. unfold Cli.WatchAction_call. cbv zeta. by rewrite H. Qed.

Lemma watch_options_keys given wd0 wd :
  Cli.watch_options realpath wd0 given = inr wd ->
  wd.*1 = wd0.*1 ++ first_seen wd0.*1 (map (fun g => realpath g.2) given).
Proof.
  revert wd0. induction given as [|[opt path] given IH]; intros wd0; cbn.
  - intros [= <-]. by rewrite app_nil_r.
  - destruct (Cli.WatchAction_call realpath wd0 path opt) as [e|wd1] eqn:E;
      [done|].
    intros Hrest. apply IH in Hrest. rewrite Hrest.
    destruct (WatchAction_call_inv _ _ _ _ E) as [i Hi].
    destruct (WatchAction_call_known wd0 path opt i Hi)
      as (wd1' & E' & _ & _ & Hkeys).
    rewrite E in E'. injection E' as <-. rewrite Hkeys.
    destruct (Cli.dict_get wd0 (realpath path)) as [fs|] eqn:G.
    + rewrite decide_True; [done|].
      destruct (decide (realpath path ∈ wd0.*1)) as [|Hn]; [done|].
      apply dict_get_None in Hn. congruence.
    + rewrite decide_False by by apply dict_get_None.
      by rewrite <- app_assoc.
Qed.

Lemma watch_options_NoDup given wd0 wd :
  NoDup wd0.*1 ->
  Cli.watch_options realpath wd0 given = inr wd -> NoDup wd.*1.
Proof.
  revert wd0. induction given as [|[opt path] given IH]; intros wd0 Hnd; cbn.
  - by intros [= <-].
  - destruct (Cli.WatchAction_call realpath wd0 path opt) as [e|wd1] eqn:E;
      [done|].
    apply IH.
    destruct (WatchAction_call_inv _ _ _ _ E) as [i Hi].
    destruct (WatchAction_call_known wd0 path opt i Hi)
      as (wd1' & E' & _ & _ & Hkeys).
    rewrite E in E'. injection E' as <-. rewrite Hkeys.
    destruct (Cli.dict_get wd0 (realpath path)) as [fs|] eqn:G; [done|].
    apply NoDup_app. split; [done|]. split; [|apply NoDup_singleton].
    intros x Hx ->%list_elem_of_singleton.
    by apply dict_get_None in G.
Qed.

Lemma fields_for_cons path opt p given :
  fields_for realpath path ((opt, p) :: given) =
  match (if decide (realpath p = path)
         then rstat_info !! Cli.lstrip_dash opt else None) with
  | Some i => i :: fields_for realpath path given
  | None => fields_for realpath path given
  end.
Proof. reflexivity. Qed.

Lemma watch_options_get given wd0 wd path :
  Cli.watch_options realpath wd0 given = inr wd ->
  Cli.dict_get wd path =
  match fields_for realpath path given with
  | [] => Cli.dict_get wd0 path
  | fs => Some (default [] (Cli.dict_get wd0 path) ++ fs)
  end.
Proof.
  revert wd0.
  induction given as [|[opt p] given IH]; intros wd0; cbn [Cli.watch_options].
  - by intros [= <-].
  - destruct (Cli.WatchAction_call realpath wd0 p opt) as [e|wd1] eqn:E;
      [done|].
    intros Hrest. rewrite (IH _ Hrest).
    destruct (WatchAction_call_inv _ _ _ _ E) as [i Hi].
    destruct (WatchAction_call_known wd0 p opt i Hi)
      as (wd1' & E' & Hget & Hother & _).
    rewrite E in E'. injection E' as <-.
    rewrite fields_for_cons.
    destruct (decide (realpath p = path)) as [<-|Hne].
    + rewrite Hi, Hget. cbn [default].
      destruct (fields_for realpath (realpath p) given); [done|].
      unfold id. by rewrite <- app_assoc.
    + by rewrite Hother.
Qed.

End WatchOptions.

(** X17: the option strings [parse_args] registers for the stat fields,
    [-opt] and [--field] of every entry of [stat_info], are accepted by
    [WatchAction]: the call returns, the entry's index is appended to the
    list of the resolved path, and the lists of other paths are left as
    they were. *)
Theorem registered_options_accepted (realpath : pystr -> pystr)
    (wd : list (pystr * list field)) (path o : pystr) (i : field)
    (opt fld desc : pystr) :
  (i, (opt, fld, desc)) ∈ stat_info ->
  o = py "-" ++ opt \/ o = py "--" ++ fld ->
  exists wd',
    Cli.WatchAction_call realpath wd path o = inr wd' /\
    Cli.dict_get wd' (realpath path) =
      Some (default [] (Cli.dict_get wd (realpath path)) ++ [i]) /\
    forall q, realpath path <> q -> Cli.dict_get wd' q = Cli.dict_get wd q.
Proof.
  intros Hin Ho.
  assert (rstat_info !! Cli.lstrip_dash o = Some i) as Hi.
  { unfold stat_info in Hin.
    repeat (apply elem_of_cons in Hin as [Hin|Hin];
            [injection Hin as -> -> -> ->;
             destruct Ho as [-> | ->]; vm_compute; reflexivity|]).
    by apply elem_of_nil in Hin. }
  destruct (WatchAction_call_known realpath wd path o i Hi)
    as (wd' & E & Hget & Hother & _).
  by exists wd'.
Qed.

(** [--size /tmp/f] after [-m /tmp/f]. *)
Lemma registered_options_accepted_witness :
  exists wd',
    Cli.WatchAction_call id [(tmp_f, [ST_MTIME])] tmp_f (py "--size")
      = inr wd' /\
    Cli.dict_get wd' tmp_f = Some [ST_MTIME; ST_SIZE].
Proof.
  destruct (registered_options_accepted id [(tmp_f, [ST_MTIME])] tmp_f
              (py "--size") ST_SIZE (py "s") (py "size") (py "total size"))
    as (wd' & E & Hget & _).
  - unfold stat_info. do 9 (apply elem_of_cons; right).
    apply elem_of_cons. by left.
  - by right.
  - exists wd'. split; [exact E | exact Hget].
Defined.

(** X18: the dict the watch options build, starting from the empty one,
    has the resolved paths as keys, each once and in the order of their
    first occurrence on the command line; no path has an empty field list,
    so [watchstat] never falls back to its default field for a watch list
    that comes from the command line; and the dict is not empty when an
    option was given. *)
Theorem watch_dict_shape (realpath : pystr -> pystr)
    (given : list (pystr * pystr)) (wd : list (pystr * list field)) :
  Cli.watch_options realpath [] given = inr wd ->
  wd.*1 = first_seen [] (map (fun g => realpath g.2) given) /\
  NoDup wd.*1 /\
  (forall path fields,
     (path, fields) ∈ wd -> fields <> [] /\ effective fields = fields) /\
  (given <> [] -> wd <> []).
Proof.
  intros E.
  pose proof (watch_options_keys realpath _ _ _ E) as Hkeys.
  cbn [fmap list_fmap app] in Hkeys.
  assert (NoDup wd.*1) as Hnd
    by (eapply watch_options_NoDup; [|exact E]; apply NoDup_nil_2).
  split; [exact Hkeys|]. split; [exact Hnd|]. split.
  - intros path fields Hin.
    apply (dict_get_elem_of _ _ _ Hnd) in Hin.
    rewrite (watch_options_get realpath _ _ _ path E) in Hin.
    destruct (fields_for realpath path given) as [|f fs]; [done|].
    injection Hin as <-. done.
  - intros Hg ->. destruct given as [|[opt p] given]; [done|].
    cbn in Hkeys. rewrite decide_False in Hkeys; [done|].
    intros H. by apply elem_of_nil in H.
Qed.

Lemma watch_dict_shape_witness :
  exists wd,
    Cli.watch_options id []
      [(py "-m", py "/tmp/g"); (py "--size", tmp_f); (py "-a", py "/tmp/g")]
      = inr wd /\
    wd.*1 = [py "/tmp/g"; tmp_f] /\ NoDup wd.*1 /\
    (forall path fields,
       (path, fields) ∈ wd -> fields <> [] /\ effective fields = fields) /\
    wd <> [].
Proof.
  destruct (Cli.watch_options id []
              [(py "-m", py "/tmp/g"); (py "--size", tmp_f);
               (py "-a", py "/tmp/g")]) as [e|wd] eqn:E;
    [by vm_compute in E|].
  exists wd. split; [reflexivity|].
  destruct (watch_dict_shape id _ wd E) as (Hk & Hnd & Hf & Hne).
  split; [rewrite Hk; by vm_compute|].
  split; [exact Hnd|]. split; [exact Hf|]. by apply Hne.
Defined.

(** X19: in that dict, the field list of a path is the list of the fields
    of the options given for it, in the order of the command line, also
    when a field is given twice; a path no option was given for has no
    entry. *)
Theorem watch_dict_fields (realpath : pystr -> pystr)
    (given : list (pystr * pystr)) (wd : list (pystr * list field))
    (path : pystr) :
  Cli.watch_options realpath [] given = inr wd ->
  Cli.dict_get wd path =
  match fields_for realpath path given with
  | [] => None
  | fields => Some fields
  end.
Proof.
  intros E. rewrite (watch_options_get realpath _ _ _ path E).
  by destruct (fields_for realpath path given).
Qed.

Lemma watch_dict_fields_witness :
  exists wd,
    Cli.watch_options id []
      [(py "-m", py "/tmp/g"); (py "--size", tmp_f); (py "-a", py "/tmp/g");
       (py "--mtime", py "/tmp/g")]
      = inr wd /\
    Cli.dict_get wd (py "/tmp/g") = Some [ST_MTIME; ST_ATIME; ST_MTIME].
Proof.
  destruct (Cli.watch_options id []
              [(py "-m", py "/tmp/g"); (py "--size", tmp_f);
               (py "-a", py "/tmp/g"); (py "--mtime", py "/tmp/g")])
    as [e|wd] eqn:E; [by vm_compute in E|].
  exists wd. split; [reflexivity|].
  rewrite (watch_dict_fields id _ wd (py "/tmp/g") E). by vm_compute.
Defined.

(** X20: processing the watch options fails only with the RuntimeError of
    [WatchAction], and exactly when one of the option strings, stripped of
    its leading dashes, is not a name of the reverse registry; the
    subscript [watchdict[path]] of line 24 never raises KeyError. *)
Theorem bad_option_is_the_only_error (realpath : pystr -> pystr)
    (given : list (pystr * pystr)) (wd0 : list (pystr * list field)) :
  match Cli.watch_options realpath wd0 given with
  | inr _ => Forall known given
  | inl e => e = Cli.RuntimeError /\ ~ Forall known given
  end.
Proof.
  revert wd0.
  induction given as [|[opt p] given IH]; intros wd0; cbn [Cli.watch_options].
  - done.
  - destruct (rstat_info !! Cli.lstrip_dash opt) as [i|] eqn:Hi.
    + destruct (WatchAction_call_known realpath wd0 p opt i Hi) as (wd1 & -> & _).
      specialize (IH wd1).
      destruct (Cli.watch_options realpath wd1 given) as [e|wd].
      * destruct IH as [-> Hn]. split; [done|].
        intros [_ H]%Forall_cons. by apply Hn.
      * apply Forall_cons. split; [|done]. unfold known. cbn [fst].
        by rewrite Hi.
    + rewrite (WatchAction_call_unknown realpath) by done. split; [done|].
      intros [H _]%Forall_cons. unfold known in H. cbn [fst] in H.
      rewrite Hi in H. by destruct H.
Qed.


(** X21: without [-l] and [-f] the limit [parse_args] hands on is 1, and
    a run of [watchstat] under it that returns has invoked the callback
    exactly once. *)
Theorem runs_once_by_default (env : Env) (fuel : nat)
    (watch : list (pystr * list field)) (interval : Z) (retry : bool)
    (softtimeout timeout : option Q) (w w' : World) (n : Z)
    (retry' : bool) (limit' : Z) :
  Cli.apply_defaults false retry None watch = inr (retry', limit') ->
  watchstat env fuel watch interval limit' retry' softtimeout timeout w
    = (Return n, w') ->
  n = 1 /\ length (called w') = S (length (called w)).
Proof.
  unfold Cli.apply_defaults. cbv zeta.
  destruct (negb _); [done|]. intros [= <- <-] E.
  apply watchstat_return in E as (Hc & Hn & Hl). lia.
Qed.

Lemma runs_once_by_default_witness :
  exists w',
    Cli.apply_defaults false false None [(tmp_f, [ST_MTIME])]
      = inr (false, 1) /\
    watchstat env_touch 2 [(tmp_f, [ST_MTIME])] 1000 1 false None None world0
      = (Return 1, w') /\
    length (called w') = S (length (called world0)).
Proof.
  destruct (watchstat env_touch 2 [(tmp_f, [ST_MTIME])] 1000 1 false None
              None world0) as [[n| |] w'] eqn:E; [|by vm_compute in E..].
  destruct (runs_once_by_default env_touch 2 [(tmp_f, [ST_MTIME])] 1000
              false None None world0 w' n false 1 eq_refl E) as [-> Hc].
  exists w'. split; [reflexivity|]. split; [reflexivity | exact Hc].
Defined.
